(** * sops-to-vault: the flattener, the indentation detector, the dry-run
    preview and the companion-document patcher, embedded from
    [flatten.go] and [main.go]. *)

From stdpp Require Import gmap strings list fin_maps sorting pretty.
From Stdlib Require Import Ascii String ZArith Lia.

Local Open Scope string_scope.
Local Open Scope list_scope.

(** ** Go strings

    A Go [string] is a sequence of bytes, and so is a Rocq [string];
    [len(s)] is [String.length s]. *)

Definition len (s : string) : nat := String.length s.

(** [strings.Join(elems, sep)]. *)
Fixpoint strings_Join (elems : list string) (sep : string) : string :=
  match elems with
  | [] => ""
  | [e] => e
  | e :: rest => e +:+ sep +:+ strings_Join rest sep
  end.

(** [strings.Split(s, sep)] for a separator of one byte, the only kind the
    program uses (["."] and ["\n"]).  The result is never empty:
    [Split("", ".")] is [[""]]. *)
Fixpoint strings_Split (s : string) (sep : ascii) : list string :=
  match s with
  | EmptyString => [""]
  | String c s' =>
      if Ascii.eqb c sep then "" :: strings_Split s' sep
      else match strings_Split s' sep with
           | [] => [String c ""]
           | w :: ws => String c w :: ws
           end
  end.

(** [strings.Contains(s, substr)] for a substring of one byte. *)
Fixpoint strings_Contains (s : string) (c : ascii) : bool :=
  match s with
  | EmptyString => false
  | String c' s' => Ascii.eqb c' c || strings_Contains s' c
  end.

(** [strings.TrimLeft(s, cutset)] for a cutset of one byte. *)
Fixpoint strings_TrimLeft (s : string) (cut : ascii) : string :=
  match s with
  | EmptyString => ""
  | String c s' => if Ascii.eqb c cut then strings_TrimLeft s' cut else s
  end.

Definition dot : ascii := "."%char.
Definition newline : ascii := "010"%char.
Definition space : ascii := " "%char.
Definition tab : ascii := "009"%char.

(** ** The document tree of [gopkg.in/yaml.v3]

    [yaml.Kind] is a [uint32] with the five constants below; [NoKind] is
    its zero value, the kind of a [yaml.Node] that was declared and never
    filled. *)
Inductive yaml_Kind : Set :=
| NoKind | DocumentNode | SequenceNode | MappingNode | ScalarNode | AliasNode.

Definition Kind_code (k : yaml_Kind) : nat :=
  match k with
  | NoKind => 0 | DocumentNode => 1 | SequenceNode => 2
  | MappingNode => 4 | ScalarNode => 8 | AliasNode => 16
  end.

Definition Kind_eqb (a b : yaml_Kind) : bool := Nat.eqb (Kind_code a) (Kind_code b).

(** [yaml.Node].  The children of a mapping are stored flat in [Content]:
    key node, value node, key node, value node, ...  The [Alias] pointer of
    the library's struct is left out: the program neither reads nor writes
    it, and [Content] never shares a node. *)
#[warnings="-register-all"]
Inductive Node : Type := mkNode {
  Kind : yaml_Kind;
  Style : Z;
  Tag : string;
  Value : string;
  Anchor : string;
  Content : list Node;
  HeadComment : string;
  LineComment : string;
  FootComment : string;
  Line : Z;
  Column : Z
}.

(** [&yaml.Node{Kind: k, Value: v}]: every other field has its zero value. *)
Definition newNode (k : yaml_Kind) (v : string) : Node :=
  mkNode k 0 "" v "" [] "" "" "" 0 0.

(** [n.Content = c]. *)
Definition setContent (n : Node) (c : list Node) : Node :=
  mkNode (Kind n) (Style n) (Tag n) (Value n) (Anchor n) c
         (HeadComment n) (LineComment n) (FootComment n) (Line n) (Column n).

(** The four assignments of [upsertNestedKey] that turn a node into the
    reference scalar:
    [n.Value = value; n.Kind = yaml.ScalarNode; n.Tag = ""; n.Content = nil]. *)
Definition assignScalar (n : Node) (value : string) : Node :=
  mkNode ScalarNode (Style n) "" value (Anchor n) []
         (HeadComment n) (LineComment n) (FootComment n) (Line n) (Column n).

(** ** DocumentPatcher ([main.go], [upsertNestedKey] and its helpers)

    The Go code mutates the tree through pointers; no node is shared, so the
    embedding returns the updated node.  An index past the end of [Content]
    is a run-time panic in Go: the functions return [None] there. *)

(** The loop [for i := 0; i < len(node.Content); i += 2] looking for the
    first even index [i] with [node.Content[i].Value == key]; [i] counts the
    index of the head of [content]. *)
Fixpoint findKey (content : list Node) (key : string) (i : nat) : option nat :=
  match content with
  | [] => None
  | k :: rest =>
      if String.eqb (Value k) key then Some i
      else match rest with
           | [] => None
           | _ :: rest' => findKey rest' key (S (S i))
           end
  end.

(** The assignments to [node.Content[j]] that make it the reference scalar. *)
Definition setScalarAt (content : list Node) (j : nat) (value : string)
  : option (list Node) :=
  match content !! j with
  | Some n => Some (<[j := assignScalar n value]> content)
  | None => None
  end.

(** [hasFlatKeys]: does a key of this mapping contain a dot? *)
Fixpoint hasFlatKeys_loop (content : list Node) : bool :=
  match content with
  | [] => false
  | k :: rest =>
      if strings_Contains (Value k) dot then true
      else match rest with
           | [] => false
           | _ :: rest' => hasFlatKeys_loop rest'
           end
  end.

Definition hasFlatKeys (node : Node) : bool := hasFlatKeys_loop (Content node).

(** [addNestedKey].  The Go code appends the empty [newMapping] to
    [node.Content] and then fills it through the pointer; the embedding
    fills it first. *)
Fixpoint addNestedKey (node : Node) (keyPath : list string) (value : string) : Node :=
  match keyPath with
  | [] => node
  | [k] =>
      setContent node (Content node ++ [newNode ScalarNode k; newNode ScalarNode value])
  | k :: rest =>
      let newMapping := addNestedKey (newNode MappingNode "") rest value in
      setContent node (Content node ++ [newNode ScalarNode k; newMapping])
  end.

(** [upsertNestedKey node keyPath value]. *)
Fixpoint upsertNestedKey (node : Node) (keyPath : list string) (value : string)
  : option Node :=
  match keyPath with
  | [] => Some node
  | seg :: keyPath' =>
      if negb (Kind_eqb (Kind node) MappingNode) then Some node
      else
        let flatKey := strings_Join keyPath "." in
        match findKey (Content node) flatKey 0 with
        | Some i =>
            content' ← setScalarAt (Content node) (i + 1) value;
            Some (setContent node content')
        | None =>
            match findKey (Content node) seg 0 with
            | Some i =>
                match keyPath' with
                | [] =>
                    content' ← setScalarAt (Content node) (i + 1) value;
                    Some (setContent node content')
                | _ :: _ =>
                    child ← Content node !! (i + 1);
                    if Kind_eqb (Kind child) MappingNode then
                      child' ← upsertNestedKey child keyPath' value;
                      Some (setContent node (<[i + 1 := child']> (Content node)))
                    else Some node
                end
            | None =>
                if hasFlatKeys node then
                  Some (setContent node
                          (Content node ++ [newNode ScalarNode flatKey;
                                            newNode ScalarNode value]))
                else Some (addNestedKey node keyPath value)
            end
        end
  end.

(** ReferenceBuilder: [fmt.Sprintf("ref+vault://%s/%s#value", vaultPath, key)]. *)
Definition vaultRef (vaultPath key : string) : string :=
  "ref+vault://" +:+ vaultPath +:+ "/" +:+ key +:+ "#value".

(** The loop of [updateCounterpartFile] over [sopsKeys]. *)
Fixpoint patchKeys (root : Node) (vaultPath : string) (sopsKeys : list string)
  : option Node :=
  match sopsKeys with
  | [] => Some root
  | key :: rest =>
      root' ← upsertNestedKey root (strings_Split key dot) (vaultRef vaultPath key);
      patchKeys root' vaultPath rest
  end.

(** ** IndentStyleDetector ([main.go], [detectIndent]) *)

(** The body of [for _, line := range lines], with the [return 2] after it. *)
Fixpoint detectIndent_lines (lines : list string) : Z :=
  match lines with
  | [] => 2
  | line :: rest =>
      let trimmed := strings_TrimLeft line space in
      if (0 <? Z.of_nat (len trimmed)) && (Z.of_nat (len trimmed) <? Z.of_nat (len line))
      then
        let indent := Z.of_nat (len line) - Z.of_nat (len trimmed) in
        if 0 <? indent then indent else detectIndent_lines rest
      else detectIndent_lines rest
  end%Z.

Definition detectIndent (content : string) : Z :=
  detectIndent_lines (strings_Split content newline).

(** ** Flattener ([flatten.go])

    The values an [interface{}] holds after [yaml.Unmarshal] into a
    [map[string]interface{}].  A Go map has no order: the list under [VMap]
    is the order in which one run of [for key, value := range data] visits
    the entries, so a statement for every list is a statement for every
    iteration order.  The keys of a Go map are distinct ([uniqueKeys]). *)
#[warnings="-register-all"]
Inductive GoValue : Type :=
| VNil
| VBool (b : bool)
| VInt (n : Z)
| VFloat64 (bits : Z)
| VString (s : string)
| VTime (t : string)
| VSlice (elems : list GoValue)
| VMap (entries : list (string * GoValue)).

(** [fullKey := key; if prefix != "" { fullKey = prefix + "." + key }]. *)
Definition fullKey (prefix key : string) : string :=
  if String.eqb prefix "" then key else prefix +:+ "." +:+ key.

(** One iteration of the loop of [flattenRecursive] on an entry whose key
    has already been extended to [fk]: a map is walked ([range]), any other
    value is stored. *)
Fixpoint flattenEntry (value : GoValue) (fk : string) (result : gmap string GoValue)
  : gmap string GoValue :=
  match value with
  | VMap v =>
      (fix range (data : list (string * GoValue)) (result : gmap string GoValue) :=
         match data with
         | [] => result
         | (key, value') :: rest =>
             range rest (flattenEntry value' (fullKey fk key) result)
         end) v result
  | _ => <[fk := value]> result
  end.

(** [flattenRecursive(data, prefix, result)]; its loop is the inner
    [range] of [flattenEntry] (see [flattenRecursive_cons] below). *)
Definition flattenRecursive (data : list (string * GoValue)) (prefix : string)
    (result : gmap string GoValue) : gmap string GoValue :=
  flattenEntry (VMap data) prefix result.

Definition Flatten (data : list (string * GoValue)) : gmap string GoValue :=
  flattenRecursive data "" ∅.

(** ** Dry-run preview ([main.go], [printDryRun]) *)

Definition nl : string := String newline "".

(** [sort.Strings]: ascending byte-wise order. *)
Definition sort_Strings (keys : list string) : list string :=
  merge_sort String.le keys.

(** The verb [%T]: the Go type of the dynamic value. *)
Definition typeName (v : GoValue) : string :=
  match v with
  | VNil => "<nil>"
  | VBool _ => "bool"
  | VInt _ => "int"
  | VFloat64 _ => "float64"
  | VString _ => "string"
  | VTime _ => "time.Time"
  | VSlice _ => "[]interface {}"
  | VMap _ => "map[string]interface {}"
  end.

(** The [switch val := v.(type)] of the loop body: one output line.  A key
    that is absent reads as the nil interface, as [data[k]] does in Go. *)
Definition dryRunLine (k : string) (v : GoValue) : string :=
  match v with
  | VString val => "  " +:+ k +:+ " = <string, " +:+ pretty (len val) +:+ " chars>" +:+ nl
  | _ => "  " +:+ k +:+ " = <" +:+ typeName v +:+ ">" +:+ nl
  end.

(** [printDryRun]: the text written to standard output.  The keys are
    collected in map order and then sorted. *)
Definition printDryRun (path mount : string) (data : gmap string GoValue) : string :=
  let keys := sort_Strings (map_to_list data).*1 in
  "[dry-run] Would write to Vault path: " +:+ mount +:+ "/" +:+ path +:+ nl +:+
  "[dry-run] " +:+ pretty (size data) +:+ " secrets:" +:+ nl +:+
  foldr String.append "" ((λ k, dryRunLine k (default VNil (data !! k))) <$> keys).

(** ** The companion file ([main.go], [updateCounterpartFile])

    The file system: a path names a regular file with its bytes, a
    directory, or nothing. *)
Inductive File : Type :=
| RegularFile (data : string)
| Directory.

(** [os.Stat(path)]: is the error one for which [os.IsNotExist] holds? *)
Definition os_Stat_IsNotExist (fs : gmap string File) (path : string) : bool :=
  match fs !! path with
  | None => true
  | Some _ => false
  end.

(** [os.ReadFile(path)]: the bytes, or an error. *)
Definition os_ReadFile (fs : gmap string File) (path : string) : string + string :=
  match fs !! path with
  | Some (RegularFile data) => inl data
  | Some Directory => inr ("read " +:+ path +:+ ": is a directory")
  | None => inr ("open " +:+ path +:+ ": no such file or directory")
  end.

(** [os.WriteFile(path, data, 0644)]: the new file system, or an error. *)
Definition os_WriteFile (fs : gmap string File) (path data : string)
  : gmap string File + string :=
  match fs !! path with
  | Some Directory => inr ("open " +:+ path +:+ ": is a directory")
  | _ => inl (<[path := RegularFile data]> fs)
  end.

Section UpdateCounterpart.
(** The YAML library is outside the repository: its parser and its
    encoder (with [SetIndent]) are parameters. *)
Variable yaml_Unmarshal : string → Node + string.
Variable yaml_Encode : Z → Node → string + string.

(** The result of [updateCounterpartFile]: the file system, [updated] and
    the error ([None] is [nil]).  The function as a whole returns [None]
    when the patch loop panics. *)
Definition updateCounterpartFile (fs : gmap string File)
    (path vaultPath : string) (sopsKeys : list string)
  : option (gmap string File * bool * option string) :=
  if os_Stat_IsNotExist fs path then Some (fs, false, None)
  else
    match os_ReadFile fs path with
    | inr err => Some (fs, false, Some ("reading file: " +:+ err))
    | inl content =>
        let indent := detectIndent content in
        match yaml_Unmarshal content with
        | inr err => Some (fs, false, Some ("parsing YAML: " +:+ err))
        | inl doc =>
            (* [root] and what the document becomes once [root] is patched *)
            let found : option (Node * (Node → Node)) :=
              match Kind doc, Content doc with
              | DocumentNode, first :: others =>
                  Some (first, λ root', setContent doc (root' :: others))
              | MappingNode, _ => Some (doc, λ root', root')
              | _, _ => None
              end in
            match found with
            | Some (root, plug) =>
                if Kind_eqb (Kind root) MappingNode then
                  root' ← patchKeys root vaultPath sopsKeys;
                  match yaml_Encode indent (plug root') with
                  | inr err => Some (fs, false, Some ("marshaling YAML: " +:+ err))
                  | inl buf =>
                      match os_WriteFile fs path buf with
                      | inr err => Some (fs, false, Some ("writing file: " +:+ err))
                      | inl fs' => Some (fs', true, None)
                      end
                  end
                else Some (fs, false,
                           Some ("expected YAML mapping at root, got kind "
                                 +:+ pretty (Kind_code (Kind doc))))
            | None => Some (fs, false,
                            Some ("expected YAML mapping at root, got kind "
                                  +:+ pretty (Kind_code (Kind doc))))
            end
        end
    end.

(** What a process leaves behind: the file system, the two output
    streams and the exit status. *)
Record Outcome : Type := mkOutcome {
  files : gmap string File;
  stdout : string;
  stderr : string;
  exitStatus : Z
}.

(** The last block of [main], [if *updateCounterpart { ... }], reached
    after every secret was written; [main] then returns, which is exit
    status 0.  [counterpart] and [absCounterpart] are the two paths the
    block computes with [path/filepath]. *)
Definition mainUpdateCounterpart (fs : gmap string File)
    (counterpart absCounterpart fullVaultPath : string) (keys : list string)
  : option Outcome :=
  r ← updateCounterpartFile fs counterpart fullVaultPath keys;
  match r with
  | (fs', _, Some err) =>
      Some (mkOutcome fs' ""
              ("Warning: failed to update counterpart file: " +:+ err +:+ nl) 0)
  | (fs', true, None) =>
      Some (mkOutcome fs'
              ("Updated " +:+ absCounterpart +:+ " with " +:+ pretty (List.length keys)
               +:+ " vault references" +:+ nl) "" 0)
  | (fs', false, None) =>
      Some (mkOutcome fs'
              ("Counterpart file " +:+ absCounterpart +:+ " does not exist, skipping" +:+ nl)
              "" 0)
  end.
End UpdateCounterpart.

(** ** Specification-side notions for the patcher *)

(** Entry [i] of a mapping's [Content] is a key node (even index) whose
    text is [key]. *)
Definition keyAt (content : list Node) (i : nat) (key : string) : Prop :=
  Nat.even i = true ∧ ∃ k, content !! i = Some k ∧ Value k = key.

Definition hasKey (content : list Node) (key : string) : Prop :=
  ∃ i, keyAt content i key.

(** The entry the loops of [upsertNestedKey] stop at: the first one. *)
Definition firstKeyAt (content : list Node) (i : nat) (key : string) : Prop :=
  keyAt content i key ∧ ∀ j, j < i → ¬ keyAt content j key.

(** Flat-style level: some key contains a dot. *)
Definition hasDottedKey (content : list Node) : Prop :=
  ∃ i k, Nat.even i = true ∧ content !! i = Some k ∧
         strings_Contains (Value k) dot = true.

(** The subtree the spec describes for a new nested key: one new mapping
    per segment, the reference scalar as the leaf. *)
Fixpoint nestedChain (segs : list string) (value : string) : Node :=
  match segs with
  | [] => newNode ScalarNode value
  | s :: segs' =>
      setContent (newNode MappingNode "")
                 [newNode ScalarNode s; nestedChain segs' value]
  end.

(** Number of mapping nodes on the spine of a chain. *)
Fixpoint chainMappings (n : Node) : nat :=
  match Kind n, Content n with
  | MappingNode, [_; v] => S (chainMappings v)
  | _, _ => 0
  end.

(** Every mapping of the tree has its keys and values paired up, as every
    tree built by the YAML parser has. *)
#[warnings="-register-all"]
Inductive wfNode : Node → Prop :=
| wfNode_intro n :
    (Kind n = MappingNode → Nat.even (List.length (Content n)) = true) →
    Forall wfNode (Content n) →
    wfNode n.

(** The recursion of [upsertNestedKey]: the call on [node] and [keyPath]
    reaches, through first-segment matches on mappings, the call on [lvl]
    and [keyPath']; [plug] puts the result of that inner call back in
    place. *)
Inductive descends : Node → list string → Node → list string → (Node → Node) → Prop :=
| descends_here node keyPath :
    descends node keyPath node keyPath (λ r, r)
| descends_step node seg keyPath' i child lvl keyPath'' plug :
    Kind node = MappingNode →
    keyPath' ≠ [] →
    ¬ hasKey (Content node) (strings_Join (seg :: keyPath') ".") →
    firstKeyAt (Content node) i seg →
    Content node !! (i + 1) = Some child →
    Kind child = MappingNode →
    descends child keyPath' lvl keyPath'' plug →
    descends node (seg :: keyPath') lvl keyPath''
             (λ r, setContent node (<[i + 1 := plug r]> (Content node))).


(** Short hands to write trees down: what the parser builds for a plain
    scalar and for a block mapping (positions and styles left at zero). *)
Definition scalar (v : string) : Node := newNode ScalarNode v.
Definition mapping (entries : list Node) : Node :=
  setContent (newNode MappingNode "") entries.

(** ** Specification-side notions for the indentation detector *)

(** Number of space characters a line starts with. *)
Fixpoint countSpaces (line : string) : nat :=
  match line with
  | EmptyString => 0
  | String c line' => if Ascii.eqb c space then S (countSpaces line') else 0
  end.

(** An indented line: at least one leading space, and something that is
    not a space after the leading spaces. *)
Definition indentedLine (line : string) : bool :=
  (0 <? countSpaces line)%nat && (countSpaces line <? len line)%nat.

(** ** Specification-side notions for the preview *)

(** Two values of the same kind and, for strings, of the same length. *)
Definition sameShape (v1 v2 : GoValue) : Prop :=
  typeName v1 = typeName v2 ∧
  ∀ s1 s2, v1 = VString s1 → v2 = VString s2 → len s1 = len s2.

(** ** Specification-side notions for the flattener *)

(** The leaves below a value, each with the path of keys that leads to it
    through mapping values only; anything that is not a mapping is a leaf. *)
Fixpoint leavesUnder (v : GoValue) : list (list string * GoValue) :=
  match v with
  | VMap entries =>
      flat_map (λ kv, (λ pv, (kv.1 :: pv.1, pv.2)) <$> leavesUnder kv.2) entries
  | _ => [([], v)]
  end.

Definition leaves (data : list (string * GoValue)) : list (list string * GoValue) :=
  leavesUnder (VMap data).

Definition isMap (v : GoValue) : bool :=
  match v with VMap _ => true | _ => false end.

(** The key the code computes for a leaf at [path] below the prefix [fk]. *)
Definition codeKey (fk : string) (path : list string) : string :=
  foldl fullKey fk path.

Definition insertLeaf (fk : string) (r : gmap string GoValue)
    (pv : list string * GoValue) : gmap string GoValue :=
  <[codeKey fk pv.1 := pv.2]> r.

(** The flat entry the spec asks for: the path joined with dots. *)
Definition joined (pv : list string * GoValue) : string * GoValue :=
  (strings_Join pv.1 ".", pv.2).

(** ** Specification-side notions for a sequence of patches *)

(** The reference [v] sits as a scalar leaf at the nested path [path]
    below [n]. *)
Fixpoint nestedLeaf (n : Node) (path : list string) (v : string) : Prop :=
  match path with
  | [] => Kind n = ScalarNode ∧ Value n = v
  | k :: rest =>
      Kind n = MappingNode ∧
      ∃ i child, firstKeyAt (Content n) i k ∧ Content n !! (i + 1) = Some child ∧
                 nestedLeaf child rest v
  end.

(** Some scalar of the tree holds the text [v]. *)
Fixpoint mentions (v : string) (n : Node) : bool :=
  (Kind_eqb (Kind n) ScalarNode && String.eqb (Value n) v)
  || existsb (mentions v) (Content n).

(** [p1] is a proper prefix of [p2], segment by segment. *)
Definition strictPrefix (p1 p2 : list string) : Prop :=
  ∃ ext, ext ≠ [] ∧ p2 = p1 ++ ext.

(** ** Specification-side notions for what a patch preserves *)

(** [Preserved n n']: [n'] is [n] with entries overwritten in place or
    appended at the end, at this mapping and at the mappings below it that
    are still there.  Key nodes stay where they are, untouched; a value is
    either replaced by the reference scalar ([ValueKept_overwritten], which
    drops whatever was below it) or is itself preserved. *)
Inductive Preserved : Node → Node → Prop :=
| Preserved_same n : Preserved n n
| Preserved_mapping n content' extra :
    Kind n = MappingNode →
    Entries (Content n) content' →
    Preserved n (setContent n (content' ++ extra))
with Entries : list Node → list Node → Prop :=
| Entries_nil : Entries [] []
| Entries_odd k : Entries [k] [k]
| Entries_cons k v v' rest rest' :
    ValueKept v v' → Entries rest rest' →
    Entries (k :: v :: rest) (k :: v' :: rest')
with ValueKept : Node → Node → Prop :=
| ValueKept_overwritten v value : ValueKept v (assignScalar v value)
| ValueKept_patched v v' : Preserved v v' → ValueKept v v'.

Scheme Preserved_mut := Minimality for Preserved Sort Prop
  with Entries_mut := Minimality for Entries Sort Prop
  with ValueKept_mut := Minimality for ValueKept Sort Prop.

Combined Scheme Preserved_mutind from Preserved_mut, Entries_mut, ValueKept_mut.

(** The keys of a mapping in order: the texts at the even positions. *)
Fixpoint mapKeys (content : list Node) : list string :=
  match content with
  | [] => []
  | k :: rest =>
      Value k :: match rest with
                 | [] => []
                 | _ :: rest' => mapKeys rest'
                 end
  end.

(** The (key, position) pairs of one [Content] list, [i] being the
    position of its head. *)
Fixpoint keyPositions (content : list Node) (i : nat) : list (string * nat) :=
  match content with
  | [] => []
  | k :: rest =>
      (Value k, i) :: match rest with
                      | [] => []
                      | _ :: rest' => keyPositions rest' (S (S i))
                      end
  end.

(** The (key, position) pairs of every mapping of a tree. *)
Fixpoint allEntries (n : Node) : list (string * nat) :=
  (if Kind_eqb (Kind n) MappingNode then keyPositions (Content n) 0 else [])
  ++ flat_map allEntries (Content n).

(** Two values that are the same Go value: the entries of every map are
    the same, visited in a possibly different order. *)
#[warnings="-register-all"]
Inductive sameMap : GoValue → GoValue → Prop :=
| sameMap_leaf v : isMap v = false → sameMap v v
| sameMap_map es es' es'' :
    Forall2 (λ kv kv', kv.1 = kv'.1 ∧ sameMap kv.2 kv'.2) es es'' →
    es'' ≡ₚ es' →
    sameMap (VMap es) (VMap es').

(** A leaf with the key the code builds for it at the top level. *)
Definition coded (pv : list string * GoValue) : string * GoValue :=
  (codeKey "" pv.1, pv.2).

(** ** Stand-ins for the YAML library, used to run the file update on
    concrete inputs: a parser that knows three files and an encoder that
    only records the indent width it was given. *)
Definition document (children : list Node) : Node :=
  setContent (newNode DocumentNode "") children.

Definition sequence (items : list Node) : Node :=
  setContent (newNode SequenceNode "") items.

Definition sampleUnmarshal (content : string) : Node + string :=
  if String.eqb content "password: placeholder"
  then inl (document [mapping [scalar "password"; scalar "placeholder"]])
  else if String.eqb content "- item"
  then inl (document [sequence [scalar "item"]])
  else inr "yaml: did not find expected key".

Definition sampleEncode (indent : Z) (doc : Node) : string + string :=
  inl ("encoded with indent " +:+ pretty indent).

(** ** File names ([main.go], [cleanFilename] and [counterpartFilename]) *)

(** [strings.Index(s, substr)]: the index of the first instance of
    [substr] in [s], or -1. *)
Fixpoint strings_Index (s substr : string) : Z :=
  if String.prefix substr s then 0%Z
  else match s with
       | EmptyString => (-1)%Z
       | String _ s' =>
           let i := strings_Index s' substr in
           if (i =? -1)%Z then (-1)%Z else (i + 1)%Z
       end.

(** The slice [s[:idx]]. *)
Definition sliceTo (s : string) (idx : Z) : string :=
  String.substring 0 (Z.to_nat idx) s.

Section Filenames.
(** [path/filepath] is outside the repository: [Base], [Dir] and [Join]
    are parameters. *)
Variable filepath_Base : string → string.
Variable filepath_Dir : string → string.
Variable filepath_Join : string → string → string.

Definition cleanFilename (path : string) : string :=
  let name := filepath_Base path in
  let idx := strings_Index name "-secrets" in
  if negb (idx =? -1)%Z then sliceTo name idx
  else
    let idx := strings_Index name "." in
    if negb (idx =? -1)%Z then sliceTo name idx
    else name.

Definition counterpartFilename (sopsPath : string) : string :=
  let dir := filepath_Dir sopsPath in
  let name := cleanFilename sopsPath in
  filepath_Join dir (name +:+ ".yaml").
End Filenames.

(** [filepath.Base] for slash-separated paths, as the Go library documents
    it: trailing slashes are dropped, the last element is returned, the
    empty path gives ["."] and a path of slashes gives ["/"].  It is used
    to run [cleanFilename] on the paths of the repository's tests. *)
Fixpoint lastElement (path : string) (current : string) : string :=
  match path with
  | EmptyString => current
  | String c path' =>
      if Ascii.eqb c "/"%char then
        (* a slash ends the element, unless only slashes follow *)
        if String.eqb (strings_TrimLeft path' "/"%char) "" then current
        else lastElement path' ""
      else lastElement path' (current +:+ String c "")
  end.

Definition unixBase (path : string) : string :=
  if String.eqb path "" then "."
  else if String.eqb (strings_TrimLeft path "/"%char) "" then "/"
  else lastElement path "".

(** ** The Vault client (the third source file) and [main] *)

(** The flags after [flag.Parse]. *)
Record Flags : Type := mkFlags {
  vaultAddr : string;
  vaultToken : string;
  mountPath : string;
  dryRun : bool;
  appendName : bool;
  nameOverride : string;
  updateCounterpart : bool
}.

(** [resolveConfig]: the flag if it is set, else the environment variable
    ([os.Getenv] gives [""] for a variable that is not set). *)
Definition resolveConfig (env : gmap string string) (flagVal envVar : string) : string :=
  if negb (String.eqb flagVal "") then flagVal else default "" (env !! envVar).

(** What the program keeps of an [*api.Client]: its address and token. *)
Record api_Client : Type := mkClient {
  Address : string;
  Token : string
}.

(** [VaultClient]. *)
Record VaultClient : Type := mkVaultClient {
  client : api_Client;
  clientMountPath : string
}.

Section Main.
(** Outside the repository, and parameters here: the Vault server with its
    state [V] ([api.NewClient] and [client.Logical().Write], which may
    change the state even when it reports an error), the verb [%v] of
    [fmt], SOPS decryption, the YAML library, [path/filepath], and the text
    [flag.Usage] prints. *)
Variable V : Type.
Variable api_NewClient : string → option string.
Variable Logical_Write : V → api_Client → string → GoValue → V * option string.
Variable fmt_v : GoValue → string.
Variable decrypt_File : gmap string File → string → string + string.
Variable yaml_Unmarshal_map : string → list (string * GoValue) + string.
Variable yaml_Unmarshal : string → Node + string.
Variable yaml_Encode : Z → Node → string + string.
Variable filepath_Base : string → string.
Variable filepath_Dir : string → string.
Variable filepath_Join : string → string → string.
Variable filepath_Abs : string → string.
Variable usage : string.

(** [NewVaultClient]. *)
Definition NewVaultClient (addr token mount : string) : VaultClient + string :=
  match api_NewClient addr with
  | Some err => inr ("failed to create vault client: " +:+ err)
  | None => inl (mkVaultClient (mkClient addr token) mount)
  end.

(** [WriteKVv2]: the value, rendered with [%v], goes under the key
    ["value"] of the ["data"] field, to [<mount>/data/<path>]. *)
Definition WriteKVv2 (v : VaultClient) (store : V) (path : string) (value : GoValue)
  : V * option string :=
  let strValue := fmt_v value in
  let secretData := VMap [("data", VMap [("value", VString strValue)])] in
  let fullPath := clientMountPath v +:+ "/data/" +:+ path in
  match Logical_Write store (client v) fullPath secretData with
  | (store', Some err) =>
      (store', Some ("failed to write to vault path " +:+ path +:+ ": " +:+ err))
  | (store', None) => (store', None)
  end.

(** The loop of [main] over the sorted keys; it stops at the first error,
    which it returns with the path it was writing. *)
Fixpoint writeSecrets (v : VaultClient) (store : V) (vaultPath : string)
    (flattened : gmap string GoValue) (keys : list string)
  : V * option (string * string) :=
  match keys with
  | [] => (store, None)
  | key :: rest =>
      let secretPath := vaultPath +:+ "/" +:+ key in
      match WriteKVv2 v store secretPath (default VNil (flattened !! key)) with
      | (store', Some err) => (store', Some (secretPath, err))
      | (store', None) => writeSecrets v store' vaultPath flattened rest
      end
  end.

(** The counterpart preview of a dry run. *)
Definition dryRunCounterpart (fs : gmap string File) (sopsFile fullVaultPath : string)
    (keys : list string) : string :=
  let counterpart := counterpartFilename filepath_Base filepath_Dir filepath_Join sopsFile in
  if negb (os_Stat_IsNotExist fs counterpart) then
    "[dry-run] Would update " +:+ counterpart +:+ " with vault references:" +:+ nl +:+
    foldr String.append ""
      ((λ k, "  " +:+ k +:+ ": " +:+ vaultRef fullVaultPath k +:+ nl) <$> keys)
  else
    "[dry-run] Counterpart file " +:+ counterpart +:+ " does not exist, skipping" +:+ nl.

(** [main]: from the parsed flags, the positional arguments, the
    environment, the file system and the Vault state to the Vault state and
    the outcome of the process.  [os.Exit(1)] ends the run at once. *)
Definition main (flags : Flags) (args : list string) (env : gmap string string)
    (fs : gmap string File) (store : V) : option (V * Outcome) :=
  let exit1 (msg : string) := Some (store, mkOutcome fs "" msg 1) in
  match args with
  | [sopsFile; vaultPath0] =>
      let vaultPath :=
        if appendName flags then
          let name :=
            if String.eqb (nameOverride flags) "" then cleanFilename filepath_Base sopsFile
            else nameOverride flags in
          vaultPath0 +:+ "/" +:+ name
        else vaultPath0 in
      let addr := resolveConfig env (vaultAddr flags) "VAULT_ADDR" in
      let token := resolveConfig env (vaultToken flags) "VAULT_TOKEN" in
      if negb (dryRun flags) && String.eqb addr "" then
        exit1 ("Error: Vault address required (--vault-addr or VAULT_ADDR)" +:+ nl)
      else if negb (dryRun flags) && String.eqb token "" then
        exit1 ("Error: Vault token required (--vault-token or VAULT_TOKEN)" +:+ nl)
      else
        match decrypt_File fs sopsFile with
        | inr err => exit1 ("Error decrypting SOPS file: " +:+ err +:+ nl)
        | inl decrypted =>
            match yaml_Unmarshal_map decrypted with
            | inr err => exit1 ("Error parsing YAML: " +:+ err +:+ nl)
            | inl data =>
                let flattened := Flatten data in
                let keys := sort_Strings (map_to_list flattened).*1 in
                let fullVaultPath := mountPath flags +:+ "/" +:+ vaultPath in
                if dryRun flags then
                  Some (store,
                        mkOutcome fs
                          (printDryRun vaultPath (mountPath flags) flattened +:+
                           (if updateCounterpart flags
                            then dryRunCounterpart fs sopsFile fullVaultPath keys
                            else ""))
                          "" 0)
                else
                  match NewVaultClient addr token (mountPath flags) with
                  | inr err => exit1 ("Error creating Vault client: " +:+ err +:+ nl)
                  | inl vc =>
                      match writeSecrets vc store vaultPath flattened keys with
                      | (store', Some (secretPath, err)) =>
                          Some (store',
                                mkOutcome fs ""
                                  ("Error writing to Vault path " +:+ secretPath +:+ ": "
                                   +:+ err +:+ nl) 1)
                      | (store', None) =>
                          let wrote :=
                            "Successfully wrote " +:+ pretty (size flattened) +:+
                            " secrets to " +:+ mountPath flags +:+ "/" +:+ vaultPath
                            +:+ "/*" +:+ nl in
                          if updateCounterpart flags then
                            let counterpart :=
                              counterpartFilename filepath_Base filepath_Dir
                                                  filepath_Join sopsFile in
                            let absCounterpart := filepath_Abs counterpart in
                            o ← mainUpdateCounterpart yaml_Unmarshal yaml_Encode fs
                                  counterpart absCounterpart fullVaultPath keys;
                            Some (store',
                                  mkOutcome (files o) (wrote +:+ stdout o) (stderr o)
                                            (exitStatus o))
                          else Some (store', mkOutcome fs wrote "" 0)
                      end
                  end
            end
        end
  | _ => Some (store, mkOutcome fs "" usage 1)
  end.
End Main.

(** ** Stand-ins for the collaborators of [main], used to run it on
    concrete inputs: a Vault that logs what it is sent and refuses the paths
    under [app/locked], a decryption that returns the file as it is, and a
    parser that knows two documents. *)
Definition sampleNewClient (addr : string) : option string :=
  if String.eqb addr "" then Some "no address" else None.

Definition sampleWrite (store : list (string * GoValue)) (c : api_Client)
    (fullPath : string) (data : GoValue) : list (string * GoValue) * option string :=
  if String.prefix "secret/data/app/locked" fullPath
  then (store, Some "permission denied")
  else (store ++ [(fullPath, data)], None).

Definition sample_fmt_v (v : GoValue) : string :=
  match v with
  | VString s => s
  | VInt n => pretty n
  | VBool true => "true"
  | VBool false => "false"
  | _ => "<nil>"
  end.

Definition sampleDecrypt (fs : gmap string File) (path : string) : string + string :=
  match fs !! path with
  | Some (RegularFile data) => inl data
  | _ => inr "cannot read the file"
  end.

Definition sampleUnmarshalMap (decrypted : string) : list (string * GoValue) + string :=
  if String.eqb decrypted "good"
  then inl [("password", VString "hunter2"); ("db", VMap [("port", VInt 5432)])]
  else if String.eqb decrypted "locked"
  then inl [("z", VString "3"); ("locked", VString "2"); ("a", VString "1")]
  else inr "yaml: unmarshal error".

Definition sampleJoin (dir name : string) : string :=
  if String.eqb dir "." then name else dir +:+ "/" +:+ name.

Definition sampleMain :=
  main (list (string * GoValue)) sampleNewClient sampleWrite sample_fmt_v
       sampleDecrypt sampleUnmarshalMap sampleUnmarshal sampleEncode
       unixBase (λ _, ".") sampleJoin (λ p, "/work/" +:+ p) "Usage: ...".

Definition sampleFlags (dry update : bool) : Flags :=
  mkFlags "https://vault.example.com" "s.token" "secret" dry false "" update.

Definition sampleFS : gmap string File :=
  {[ "good-secrets.enc.yaml" := RegularFile "good";
     "locked-secrets.enc.yaml" := RegularFile "locked";
     "good.yaml" := RegularFile "a: [" ]}.

(** ** Strings *)

Lemma Kind_eqb_eq a b : Kind_eqb a b = true ↔ a = b.
Proof. destruct a, b; cbn; split; intros; congruence. Qed.

Lemma Kind_eqb_neq a b : Kind_eqb a b = false ↔ a ≠ b.
Proof. destruct a, b; cbn; split; intros; congruence. Qed.

Lemma strings_Split_not_nil s c : strings_Split s c ≠ [].
Proof.
  destruct s as [|a s]; cbn; [done|].
  destruct (Ascii.eqb a c); [done|]. by destruct (strings_Split s c).
Qed.

(** Splitting and joining back on the same byte gives the string back. *)
Lemma strings_Join_Split s c :
  strings_Join (strings_Split s c) (String c "") = s.
Proof.
  induction s as [|a s IH]; [done|]. cbn [strings_Split].
  destruct (Ascii.eqb_spec a c) as [->|Hne].
  - pose proof (strings_Split_not_nil s c) as Hnil.
    destruct (strings_Split s c) as [|w ws] eqn:E; [done|].
    cbn in *. by rewrite IH.
  - destruct (strings_Split s c) as [|w ws] eqn:E.
    + by apply strings_Split_not_nil in E.
    + destruct ws as [|w' ws]; cbn in *; by rewrite <- IH.
Qed.

(** No segment of a split contains the separator. *)
Lemma strings_Split_no_sep s c :
  Forall (λ w, strings_Contains w c = false) (strings_Split s c).
Proof.
  induction s as [|a s IH]; cbn.
  - by repeat constructor.
  - destruct (Ascii.eqb a c) eqn:E; [by constructor|].
    destruct (strings_Split s c) as [|w ws] eqn:Es;
      [by apply strings_Split_not_nil in Es|].
    inversion IH; subst. constructor; [|done]. cbn. by rewrite E.
Qed.

Lemma string_app_cons a s t : String a s +:+ t = String a (s +:+ t).
Proof. done. Qed.

Lemma string_app_assoc s t u : (s +:+ t) +:+ u = s +:+ (t +:+ u).
Proof.
  induction s as [|a s IH]; [done|]. rewrite !string_app_cons. by f_equal.
Qed.

Lemma string_app_nil_r s : s +:+ "" = s.
Proof. induction s as [|a s IH]; [done|]. rewrite string_app_cons. by f_equal. Qed.

Lemma string_app_length s t : len (s +:+ t) = len s + len t.
Proof.
  induction s as [|a s IH]; [done|]. rewrite string_app_cons. cbn. unfold len in IH.
  by rewrite IH.
Qed.

Lemma strings_Contains_app s t c :
  strings_Contains (s +:+ t) c = strings_Contains s c || strings_Contains t c.
Proof.
  induction s as [|a s IH]; [done|].
  change (String a s +:+ t) with (String a (s +:+ t)).
  cbn. by rewrite IH, orb_assoc.
Qed.

(** A joined path of two or more segments contains the separator. *)
Lemma strings_Join_dotted seg rest :
  rest ≠ [] → strings_Contains (strings_Join (seg :: rest) ".") dot = true.
Proof.
  intros Hne. destruct rest as [|r rest]; [done|].
  cbn [strings_Join]. rewrite strings_Contains_app. cbn.
  by rewrite orb_true_r.
Qed.

(** ** The loops over a mapping's entries *)

(** Induction over a flat [Content] list two nodes at a time. *)
Lemma list_pair_ind {A} (P : list A → Prop) :
  P [] → (∀ x, P [x]) → (∀ x y l, P l → P (x :: y :: l)) → ∀ l, P l.
Proof.
  intros Hnil Hone Hstep.
  assert (H : ∀ l, P l ∧ ∀ x, P (x :: l)).
  { induction l as [|y l [IH1 IH2]]; split; auto. }
  intros l. apply H.
Qed.

Lemma keyAt_nil i key : ¬ keyAt [] i key.
Proof. intros [_ (k & Hk & _)]. by rewrite lookup_nil in Hk. Qed.

Lemma keyAt_one x i key : keyAt [x] i key ↔ i = 0 ∧ Value x = key.
Proof.
  split.
  - intros [He (k & Hk & Hv)]. destruct i as [|[|i]]; cbn in *; [|done..].
    by simplify_eq.
  - intros [-> Hv]. split; [done|]. by exists x.
Qed.

Lemma keyAt_cons2 x y l i key :
  keyAt (x :: y :: l) i key ↔
  (i = 0 ∧ Value x = key) ∨ (∃ j, i = S (S j) ∧ keyAt l j key).
Proof.
  split.
  - intros [He (k & Hk & Hv)]. destruct i as [|[|j]]; cbn in *.
    + left. by simplify_eq.
    + done.
    + right. exists j. split; [done|]. split; [done|]. by exists k.
  - intros [[-> Hv]|(j & -> & He & k & Hk & Hv)].
    + split; [done|]. by exists x.
    + split; [done|]. by exists k.
Qed.

Lemma findKey_offset content key i :
  findKey content key i = (λ j, i + j) <$> findKey content key 0.
Proof.
  revert i. induction content as [| x | x y l IH] using list_pair_ind; intros i; cbn.
  - done.
  - destruct (String.eqb (Value x) key); cbn; [f_equal; lia|done].
  - destruct (String.eqb (Value x) key); cbn; [f_equal; lia|].
    rewrite (IH (S (S i))), (IH 2). destruct (findKey l key 0); cbn; [f_equal; lia|done].
Qed.

(** The loop stops at the first entry whose key is [key] ... *)
Lemma findKey_Some content key i :
  findKey content key 0 = Some i ↔ firstKeyAt content i key.
Proof.
  revert i. induction content as [| x | x y l IH] using list_pair_ind; intros i.
  - split; [done|]. intros [H _]. by apply keyAt_nil in H.
  - cbn. destruct (String.eqb_spec (Value x) key) as [Hv|Hv].
    + split.
      * intros [= <-]. split; [by apply keyAt_one|]. lia.
      * intros [[-> _]%keyAt_one _]. done.
    + split; [done|]. intros [[_ ?]%keyAt_one _]. done.
  - cbn [findKey]. destruct (String.eqb_spec (Value x) key) as [Hv|Hv].
    + split.
      * intros [= <-]. split; [apply keyAt_cons2; by left|]. lia.
      * intros [_ Hfirst]. destruct i as [|i]; [done|].
        exfalso. apply (Hfirst 0); [lia|]. apply keyAt_cons2. by left.
    + rewrite findKey_offset. split.
      * destruct (findKey l key 0) as [j|] eqn:E; [|done]. intros [= <-].
        destruct (proj1 (IH j) eq_refl) as [Hat Hfirst]. split.
        -- apply keyAt_cons2. right. by exists j.
        -- intros j' Hlt [[-> ?]|(j'' & -> & Hj'')]%keyAt_cons2; [done|].
           apply (Hfirst j''); [lia|done].
      * intros [[[-> ?]|(j & -> & Hj)]%keyAt_cons2 Hfirst]; [done|].
        assert (findKey l key 0 = Some j) as ->; [|done].
        apply IH. split; [done|]. intros j' Hlt Hj'.
        apply (Hfirst (S (S j'))); [lia|]. apply keyAt_cons2. right. by exists j'.
Qed.

(** ... and runs to the end exactly when there is none. *)
Lemma findKey_None content key :
  findKey content key 0 = None ↔ ¬ hasKey content key.
Proof.
  induction content as [| x | x y l IH] using list_pair_ind.
  - split; [|done]. intros _ [i H]. by apply keyAt_nil in H.
  - cbn. destruct (String.eqb_spec (Value x) key) as [Hv|Hv].
    + split; [done|]. intros H. exfalso. apply H. exists 0. by apply keyAt_one.
    + split; [|done]. intros _ [i [_ ?]%keyAt_one]. done.
  - cbn [findKey]. destruct (String.eqb_spec (Value x) key) as [Hv|Hv].
    + split; [done|]. intros H. exfalso. apply H. exists 0.
      apply keyAt_cons2. by left.
    + rewrite findKey_offset. split.
      * destruct (findKey l key 0) eqn:E; [done|]. intros _ [i Hi].
        apply keyAt_cons2 in Hi as [[_ ?]|(j & -> & Hj)]; [done|].
        apply IH; [done|]. by exists j.
      * intros H. assert (findKey l key 0 = None) as ->; [|done].
        apply IH. intros [j Hj]. apply H. exists (S (S j)).
        apply keyAt_cons2. right. by exists j.
Qed.

Lemma hasKey_first content key :
  hasKey content key → ∃ i, firstKeyAt content i key.
Proof.
  intros H. destruct (findKey content key 0) as [i|] eqn:E.
  - exists i. by apply findKey_Some.
  - by apply findKey_None in E.
Qed.

Lemma firstKeyAt_unique content key i j :
  firstKeyAt content i key → firstKeyAt content j key → i = j.
Proof. intros Hi%findKey_Some Hj%findKey_Some. congruence. Qed.

Lemma hasFlatKeys_loop_true content :
  hasFlatKeys_loop content = true ↔ hasDottedKey content.
Proof.
  induction content as [| x | x y l IH] using list_pair_ind.
  - split; [done|]. intros (i & k & _ & Hk & _). by rewrite lookup_nil in Hk.
  - cbn. destruct (strings_Contains (Value x) dot) eqn:E.
    + split; [|done]. intros _. by exists 0, x.
    + split; [done|]. intros (i & k & He & Hk & Hc).
      destruct i as [|[|i]]; cbn in He, Hk; [|done..]. simplify_eq. congruence.
  - cbn [hasFlatKeys_loop]. destruct (strings_Contains (Value x) dot) eqn:E.
    + split; [|done]. intros _. by exists 0, x.
    + rewrite IH. split.
      * intros (i & k & He & Hk & Hc). by exists (S (S i)), k.
      * intros (i & k & He & Hk & Hc). destruct i as [|[|i]]; cbn in He, Hk.
        -- simplify_eq. congruence.
        -- done.
        -- by exists i, k.
Qed.

Lemma hasFlatKeys_loop_false content :
  hasFlatKeys_loop content = false ↔ ¬ hasDottedKey content.
Proof.
  rewrite <- hasFlatKeys_loop_true. by destruct (hasFlatKeys_loop content).
Qed.

(** ** One call of [upsertNestedKey], rule by rule *)

Lemma setContent_id n : setContent n (Content n) = n.
Proof. by destruct n. Qed.

Lemma Content_setContent n c : Content (setContent n c) = c.
Proof. done. Qed.

Lemma Kind_setContent n c : Kind (setContent n c) = Kind n.
Proof. done. Qed.

Lemma setContent_setContent n c c' : setContent (setContent n c) c' = setContent n c'.
Proof. done. Qed.

(** In a paired-up [Content] every key node is followed by a value node. *)
Lemma even_lookup_value {A} (l : list A) i :
  Nat.even (List.length l) = true → Nat.even i = true → i < List.length l →
  is_Some (l !! (i + 1)).
Proof.
  intros Hl Hi Hlt. apply lookup_lt_is_Some.
  destruct (decide (i + 1 < List.length l)) as [|Hge]; [done|].
  assert (List.length l = S i) as E by lia.
  rewrite E, Nat.even_succ, <- Nat.negb_even, Hi in Hl. done.
Qed.

Lemma keyAt_value content i key :
  Nat.even (List.length content) = true → keyAt content i key →
  is_Some (content !! (i + 1)).
Proof.
  intros Hl [Hi (k & Hk & _)]. apply even_lookup_value; [done..|].
  by apply lookup_lt_Some in Hk.
Qed.

Lemma upsert_not_mapping node keyPath value :
  Kind node ≠ MappingNode → upsertNestedKey node keyPath value = Some node.
Proof.
  intros Hk. destruct keyPath; [done|]. cbn.
  apply Kind_eqb_neq in Hk. by rewrite Hk.
Qed.

(** Rule 1: exact flat match. *)
Lemma upsert_flat_match node keyPath value i old :
  Kind node = MappingNode → keyPath ≠ [] →
  firstKeyAt (Content node) i (strings_Join keyPath ".") →
  Content node !! (i + 1) = Some old →
  upsertNestedKey node keyPath value =
    Some (setContent node (<[i + 1 := assignScalar old value]> (Content node))).
Proof.
  intros Hk Hne Hi%findKey_Some Hold. destruct keyPath as [|seg rest]; [done|].
  cbn [upsertNestedKey]. apply Kind_eqb_eq in Hk. rewrite Hk. cbn [negb].
  cbv zeta. rewrite Hi. unfold setScalarAt. by rewrite Hold.
Qed.

(** Rule 2: first-segment match on a mapping, more segments to go. *)
Lemma upsert_recurse node seg keyPath' value i child :
  Kind node = MappingNode → keyPath' ≠ [] →
  ¬ hasKey (Content node) (strings_Join (seg :: keyPath') ".") →
  firstKeyAt (Content node) i seg →
  Content node !! (i + 1) = Some child →
  Kind child = MappingNode →
  upsertNestedKey node (seg :: keyPath') value =
    (λ child', setContent node (<[i + 1 := child']> (Content node)))
      <$> upsertNestedKey child keyPath' value.
Proof.
  intros Hk Hne Hflat%findKey_None Hi%findKey_Some Hc Hck.
  cbn [upsertNestedKey]. apply Kind_eqb_eq in Hk, Hck. rewrite Hk. cbn [negb].
  cbv zeta. rewrite Hflat, Hi. destruct keyPath' as [|s' kp']; [done|].
  rewrite Hc. cbn [mbind option_bind]. rewrite Hck.
  by destruct (upsertNestedKey child (s' :: kp') value).
Qed.

(** Rule 2: first-segment match on something that is not a mapping. *)
Lemma upsert_abort node seg keyPath' value i v :
  Kind node = MappingNode → keyPath' ≠ [] →
  ¬ hasKey (Content node) (strings_Join (seg :: keyPath') ".") →
  firstKeyAt (Content node) i seg →
  Content node !! (i + 1) = Some v →
  Kind v ≠ MappingNode →
  upsertNestedKey node (seg :: keyPath') value = Some node.
Proof.
  intros Hk Hne Hflat%findKey_None Hi%findKey_Some Hc Hck.
  cbn [upsertNestedKey]. apply Kind_eqb_eq in Hk. apply Kind_eqb_neq in Hck.
  rewrite Hk. cbn [negb]. cbv zeta. rewrite Hflat, Hi.
  destruct keyPath' as [|s' kp']; [done|].
  rewrite Hc. cbn [mbind option_bind]. by rewrite Hck.
Qed.

Lemma addNestedKey_chain node k rest value :
  addNestedKey node (k :: rest) value =
    setContent node (Content node ++ [newNode ScalarNode k; nestedChain rest value]).
Proof.
  revert node k. induction rest as [|r rest IH]; intros node k; [done|].
  change (addNestedKey node (k :: r :: rest) value)
    with (setContent node (Content node ++
            [newNode ScalarNode k;
             addNestedKey (newNode MappingNode "") (r :: rest) value])).
  by rewrite IH.
Qed.

(** Rule 3: no match at this level. *)
Lemma upsert_new node seg keyPath' value :
  Kind node = MappingNode →
  ¬ hasKey (Content node) (strings_Join (seg :: keyPath') ".") →
  ¬ hasKey (Content node) seg →
  upsertNestedKey node (seg :: keyPath') value =
    Some (setContent node
            (Content node ++
               if hasFlatKeys node
               then [newNode ScalarNode (strings_Join (seg :: keyPath') ".");
                     newNode ScalarNode value]
               else [newNode ScalarNode seg; nestedChain keyPath' value])).
Proof.
  intros Hk Hflat%findKey_None Hseg%findKey_None.
  cbn [upsertNestedKey]. apply Kind_eqb_eq in Hk. rewrite Hk. cbn [negb].
  cbv zeta. rewrite Hflat, Hseg. destruct (hasFlatKeys node); [done|].
  by rewrite addNestedKey_chain.
Qed.

Lemma chainMappings_nestedChain segs value :
  chainMappings (nestedChain segs value) = List.length segs.
Proof. induction segs as [|s segs IH]; [done|]. cbn. by rewrite IH. Qed.

(** The inner call's result is put back in place, with the same [value]. *)
Lemma descends_upsert node keyPath lvl keyPath' plug value :
  descends node keyPath lvl keyPath' plug →
  upsertNestedKey node keyPath value = plug <$> upsertNestedKey lvl keyPath' value.
Proof.
  induction 1 as [node keyPath|node seg kp' i child lvl kp'' plug Hk Hne Hflat Hi Hc Hck _ IH].
  - by destruct (upsertNestedKey node keyPath value).
  - rewrite (upsert_recurse _ _ _ _ i child) by done. rewrite IH.
    by destruct (upsertNestedKey lvl kp'' value).
Qed.

Lemma descends_plug_id node keyPath lvl keyPath' plug :
  descends node keyPath lvl keyPath' plug → plug lvl = node.
Proof.
  induction 1 as [|node seg kp' i child lvl kp'' plug Hk Hne Hflat Hi Hc Hck _ IH]; [done|].
  rewrite IH, list_insert_id by done. apply setContent_id.
Qed.

Lemma patchKeys_one root vaultPath key :
  patchKeys root vaultPath [key] =
    upsertNestedKey root (strings_Split key dot) (vaultRef vaultPath key).
Proof.
  cbn. by destruct (upsertNestedKey root (strings_Split key dot) (vaultRef vaultPath key)).
Qed.

Lemma patchKeys_app root vaultPath keys1 keys2 :
  patchKeys root vaultPath (keys1 ++ keys2) =
    patchKeys root vaultPath keys1 ≫= λ root', patchKeys root' vaultPath keys2.
Proof.
  revert root. induction keys1 as [|k keys1 IH]; intros root; [done|].
  cbn. destruct (upsertNestedKey root (strings_Split k dot) (vaultRef vaultPath k)); [|done].
  cbn. apply IH.
Qed.

(** ** DocumentPatcher: the three rules *)

(** C1 — exact-flat-match precedence.  Patching the dotted key [key] from
    [root], let the recursion have reached the mapping [lvl] with the
    segments [rest] remaining.  If an entry of [lvl] has the key
    [rest] joined with ".", then the value of the first such entry is
    overwritten in place by the scalar holding the reference built from the
    whole of [key]; every other entry of [lvl] is as before and nothing is
    appended, whatever else the level holds. *)
Theorem C1_exact_flat_match root vaultPath key lvl rest plug :
  descends root (strings_Split key dot) lvl rest plug →
  Kind lvl = MappingNode → rest ≠ [] →
  Nat.even (List.length (Content lvl)) = true →
  hasKey (Content lvl) (strings_Join rest ".") →
  ∃ i old new,
    firstKeyAt (Content lvl) i (strings_Join rest ".") ∧
    Content lvl !! (i + 1) = Some old ∧
    new = assignScalar old (vaultRef vaultPath key) ∧
    Kind new = ScalarNode ∧ Value new = vaultRef vaultPath key ∧ Content new = [] ∧
    patchKeys root vaultPath [key] =
      Some (plug (setContent lvl (<[i + 1 := new]> (Content lvl)))) ∧
    List.length (<[i + 1 := new]> (Content lvl)) = List.length (Content lvl) ∧
    ∀ j, j ≠ i + 1 → <[i + 1 := new]> (Content lvl) !! j = Content lvl !! j.
Proof.
  intros Hdesc Hk Hne Heven [i Hi]%hasKey_first.
  destruct (keyAt_value _ _ _ Heven (proj1 Hi)) as [old Hold].
  exists i, old, (assignScalar old (vaultRef vaultPath key)).
  split_and!; try done.
  - rewrite patchKeys_one, (descends_upsert _ _ _ _ _ _ Hdesc).
    by rewrite (upsert_flat_match _ _ _ i old).
  - apply length_insert.
  - intros j Hj. by apply list_lookup_insert_ne.
Qed.

Lemma C1_exact_flat_match_witness :
  let lvl := mapping [scalar "db.max_conn"; scalar "1"] in
  let cfg := mapping [scalar "config"; lvl] in
  let root := mapping [scalar "api"; cfg] in
  let plug := λ r, setContent root (<[1 := setContent cfg (<[1 := r]> (Content cfg))]> (Content root)) in
  ∃ i old new,
    firstKeyAt (Content lvl) i "db.max_conn" ∧
    Content lvl !! (i + 1) = Some old ∧
    new = assignScalar old "ref+vault://secret/myapp/api.config.db.max_conn#value" ∧
    Kind new = ScalarNode ∧
    Value new = "ref+vault://secret/myapp/api.config.db.max_conn#value" ∧
    Content new = [] ∧
    patchKeys root "secret/myapp" ["api.config.db.max_conn"] =
      Some (plug (setContent lvl (<[i + 1 := new]> (Content lvl)))) ∧
    List.length (<[i + 1 := new]> (Content lvl)) = List.length (Content lvl) ∧
    ∀ j, j ≠ i + 1 → <[i + 1 := new]> (Content lvl) !! j = Content lvl !! j.
Proof.
  intros lvl cfg root plug.
  apply (C1_exact_flat_match root "secret/myapp" "api.config.db.max_conn"
           lvl ["db"; "max_conn"] plug).
  - apply (descends_step root "api" ["config"; "db"; "max_conn"] 0 cfg lvl
             ["db"; "max_conn"] (λ r, setContent cfg (<[1 := r]> (Content cfg))));
      [reflexivity | discriminate | apply findKey_None; reflexivity
      | apply findKey_Some; reflexivity | reflexivity | reflexivity |].
    apply (descends_step cfg "config" ["db"; "max_conn"] 0 lvl lvl
             ["db"; "max_conn"] (λ r, r));
      [reflexivity | discriminate | apply findKey_None; reflexivity
      | apply findKey_Some; reflexivity | reflexivity | reflexivity |].
    apply descends_here.
  - reflexivity.
  - discriminate.
  - reflexivity.
  - exists 0. split; [reflexivity|]. exists (scalar "db.max_conn"). split; reflexivity.
Defined.

(** C2 — a new key follows the style of its siblings.  With the recursion
    at the mapping [lvl] and the segments [seg :: rest] remaining, no entry
    of [lvl] having the joined path or [seg] as its key: if some key of
    [lvl] contains a dot, exactly one entry is appended, keyed by the joined
    remaining path, with the reference scalar as its value; otherwise one
    entry is appended under [seg] whose value is a chain of new mappings,
    one per remaining segment except the last, ending in the reference
    scalar. *)
Theorem C2_new_key_follows_sibling_style root vaultPath key lvl seg rest plug :
  descends root (strings_Split key dot) lvl (seg :: rest) plug →
  Kind lvl = MappingNode →
  ¬ hasKey (Content lvl) (strings_Join (seg :: rest) ".") →
  ¬ hasKey (Content lvl) seg →
  (hasDottedKey (Content lvl) →
     patchKeys root vaultPath [key] =
       Some (plug (setContent lvl
                     (Content lvl ++
                        [newNode ScalarNode (strings_Join (seg :: rest) ".");
                         newNode ScalarNode (vaultRef vaultPath key)])))) ∧
  (¬ hasDottedKey (Content lvl) →
     patchKeys root vaultPath [key] =
       Some (plug (setContent lvl
                     (Content lvl ++
                        [newNode ScalarNode seg;
                         nestedChain rest (vaultRef vaultPath key)]))) ∧
     chainMappings (nestedChain rest (vaultRef vaultPath key)) = List.length rest).
Proof.
  intros Hdesc Hk Hflat Hseg.
  rewrite patchKeys_one, (descends_upsert _ _ _ _ _ _ Hdesc).
  rewrite (upsert_new _ _ _ _ Hk Hflat Hseg). unfold hasFlatKeys. split.
  - intros Hd%hasFlatKeys_loop_true. by rewrite Hd.
  - intros Hd%hasFlatKeys_loop_false. rewrite Hd. split; [done|].
    apply chainMappings_nestedChain.
Qed.

Lemma C2_new_key_follows_sibling_style_witness :
  let root := mapping [scalar "existing"; scalar "v"] in
  (hasDottedKey (Content root) →
     patchKeys root "secret/myapp" ["new.key"] =
       Some (setContent root
               (Content root ++
                  [newNode ScalarNode "new.key";
                   newNode ScalarNode "ref+vault://secret/myapp/new.key#value"]))) ∧
  (¬ hasDottedKey (Content root) →
     patchKeys root "secret/myapp" ["new.key"] =
       Some (setContent root
               (Content root ++
                  [newNode ScalarNode "new";
                   nestedChain ["key"] "ref+vault://secret/myapp/new.key#value"])) ∧
     chainMappings (nestedChain ["key"] "ref+vault://secret/myapp/new.key#value") = 1).
Proof.
  intros root.
  apply (C2_new_key_follows_sibling_style root "secret/myapp" "new.key" root
           "new" ["key"] (λ r, r)).
  - apply descends_here.
  - reflexivity.
  - apply findKey_None. reflexivity.
  - apply findKey_None. reflexivity.
Defined.

(** C4 — the abort of rule 2 leaves the tree untouched.  With more than one
    segment remaining at the mapping [lvl], no entry having the joined path
    as its key, and the first entry keyed by the first segment holding a
    value that is not a mapping, the patch of [key] returns the tree it was
    given, without an error; the keys after it are patched as if [key] had
    not been in the list. *)
Theorem C4_abort_leaves_tree_untouched root vaultPath key keys lvl seg rest plug i v :
  descends root (strings_Split key dot) lvl (seg :: rest) plug →
  Kind lvl = MappingNode → rest ≠ [] →
  ¬ hasKey (Content lvl) (strings_Join (seg :: rest) ".") →
  firstKeyAt (Content lvl) i seg →
  Content lvl !! (i + 1) = Some v →
  Kind v ≠ MappingNode →
  patchKeys root vaultPath [key] = Some root ∧
  patchKeys root vaultPath (key :: keys) = patchKeys root vaultPath keys.
Proof.
  intros Hdesc Hk Hne Hflat Hi Hv Hvk.
  assert (upsertNestedKey root (strings_Split key dot) (vaultRef vaultPath key)
          = Some root) as Hup.
  { rewrite (descends_upsert _ _ _ _ _ _ Hdesc).
    rewrite (upsert_abort _ _ _ _ i v) by done. cbn.
    by rewrite (descends_plug_id _ _ _ _ _ Hdesc). }
  split; [by rewrite patchKeys_one|]. cbn [patchKeys]. by rewrite Hup.
Qed.

Lemma C4_abort_leaves_tree_untouched_witness :
  let root := mapping [scalar "db"; scalar "postgres://localhost";
                       scalar "name"; scalar "app"] in
  patchKeys root "secret/myapp" ["db.url"] = Some root ∧
  patchKeys root "secret/myapp" ["db.url"; "name"] =
    patchKeys root "secret/myapp" ["name"].
Proof.
  intros root.
  apply (C4_abort_leaves_tree_untouched root "secret/myapp" "db.url" ["name"]
           root "db" ["url"] (λ r, r) 0 (scalar "postgres://localhost")).
  - apply descends_here.
  - reflexivity.
  - discriminate.
  - apply findKey_None. reflexivity.
  - apply findKey_Some. reflexivity.
  - reflexivity.
  - discriminate.
Defined.

(** C10 — overwriting destroys subtrees.  When the key hits an entry by the
    exact flat match, or by a first-segment match on its last segment, and
    the entry's value is a mapping, the call returns normally and the value
    has become a scalar: kind scalar, tag empty, no children, the reference
    as its text — the same node whatever the children were. *)
Theorem C10_overwrite_discards_mapping node keyPath value i old :
  Kind node = MappingNode → keyPath ≠ [] →
  firstKeyAt (Content node) i (strings_Join keyPath ".") ∨
    (∃ seg, keyPath = [seg] ∧ firstKeyAt (Content node) i seg) →
  Content node !! (i + 1) = Some old →
  Kind old = MappingNode →
  ∃ new,
    upsertNestedKey node keyPath value =
      Some (setContent node (<[i + 1 := new]> (Content node))) ∧
    Kind new = ScalarNode ∧ Tag new = "" ∧ Content new = [] ∧ Value new = value ∧
    ∀ children, assignScalar (setContent old children) value = new.
Proof.
  intros Hk Hne Hhit Hold _.
  assert (firstKeyAt (Content node) i (strings_Join keyPath ".")) as Hi.
  { destruct Hhit as [H|(seg & -> & H)]; done. }
  exists (assignScalar old value). split_and!; try done.
  by apply upsert_flat_match.
Qed.

Lemma C10_overwrite_discards_mapping_witness :
  let old := mapping [scalar "b"; scalar "1"; scalar "c"; scalar "2"] in
  let node := mapping [scalar "a"; old] in
  ∃ new,
    upsertNestedKey node ["a"] "ref+vault://secret/app/a#value" =
      Some (setContent node (<[0 + 1 := new]> (Content node))) ∧
    Kind new = ScalarNode ∧ Tag new = "" ∧ Content new = [] ∧
    Value new = "ref+vault://secret/app/a#value" ∧
    ∀ children,
      assignScalar (setContent old children) "ref+vault://secret/app/a#value" = new.
Proof.
  intros old node.
  apply (C10_overwrite_discards_mapping node ["a"] "ref+vault://secret/app/a#value" 0 old).
  - reflexivity.
  - discriminate.
  - right. exists "a". split; [reflexivity|]. apply findKey_Some. reflexivity.
  - reflexivity.
  - reflexivity.
Defined.

(** ** IndentStyleDetector *)

Lemma TrimLeft_len line :
  len line = countSpaces line + len (strings_TrimLeft line space).
Proof.
  induction line as [|c line IH]; [done|]. cbn.
  destruct (Ascii.eqb c space); cbn; [|done]. unfold len in IH. by rewrite IH.
Qed.

Lemma countSpaces_le line : (countSpaces line ≤ len line)%nat.
Proof. rewrite (TrimLeft_len line). lia. Qed.

(** One iteration of the loop of [detectIndent]. *)
Lemma detectIndent_lines_cons line rest :
  detectIndent_lines (line :: rest) =
    if indentedLine line then Z.of_nat (countSpaces line)
    else detectIndent_lines rest.
Proof.
  cbn [detectIndent_lines]. cbv zeta. unfold indentedLine.
  pose proof (TrimLeft_len line) as Hlen.
  destruct (0 <? countSpaces line)%nat eqn:E1;
    destruct (countSpaces line <? len line)%nat eqn:E2; cbn [andb];
    repeat match goal with
    | H : (_ <? _)%nat = true |- _ => apply Nat.ltb_lt in H
    | H : (_ <? _)%nat = false |- _ => apply Nat.ltb_ge in H
    end.
  - assert ((0 <? Z.of_nat (len (strings_TrimLeft line space)))%Z = true) as ->
      by (apply Z.ltb_lt; lia).
    assert ((Z.of_nat (len (strings_TrimLeft line space)) <? Z.of_nat (len line))%Z = true) as ->
      by (apply Z.ltb_lt; lia).
    cbn [andb].
    assert ((0 <? Z.of_nat (len line) - Z.of_nat (len (strings_TrimLeft line space)))%Z = true) as ->
      by (apply Z.ltb_lt; lia).
    lia.
  - assert ((0 <? Z.of_nat (len (strings_TrimLeft line space)))%Z = false) as ->
      by (apply Z.ltb_ge; lia).
    done.
  - assert ((Z.of_nat (len (strings_TrimLeft line space)) <? Z.of_nat (len line))%Z = false) as ->
      by (apply Z.ltb_ge; lia).
    by rewrite andb_false_r.
  - assert ((Z.of_nat (len (strings_TrimLeft line space)) <? Z.of_nat (len line))%Z = false) as ->
      by (apply Z.ltb_ge; lia).
    by rewrite andb_false_r.
Qed.

Lemma detectIndent_lines_skip before rest :
  Forall (λ l, indentedLine l = false) before →
  detectIndent_lines (before ++ rest) = detectIndent_lines rest.
Proof.
  induction 1 as [|l before Hl _ IH]; [done|].
  change ((l :: before) ++ rest) with (l :: (before ++ rest)).
  by rewrite detectIndent_lines_cons, Hl.
Qed.

Lemma detectIndent_lines_pos lines : (1 ≤ detectIndent_lines lines)%Z.
Proof.
  induction lines as [|line rest IH]; [done|].
  rewrite detectIndent_lines_cons. destruct (indentedLine line) eqn:E; [|done].
  unfold indentedLine in E. apply andb_true_iff in E as [E%Nat.ltb_lt _]. lia.
Qed.

(** A line that begins with a tab is not an indented line. *)
Lemma indentedLine_tab s : indentedLine (String tab s) = false.
Proof. done. Qed.

(** C8 (as amended) — tabs get no special handling, which makes a tab an
    ordinary character that is not a space: a line that begins with a tab
    never determines the width, and in a line of spaces followed by a tab
    only the spaces count.  The width is the number of leading spaces of
    the first line that has at least one and something other than a space
    after them; [detectIndent] returns at least 1 in every case and 2 when
    there is no such line. *)
Theorem C8_detectIndent_tabs content :
  (1 ≤ detectIndent content)%Z ∧
  (Forall (λ l, indentedLine l = false) (strings_Split content newline) →
     detectIndent content = 2%Z) ∧
  (∀ before line after,
     strings_Split content newline = before ++ line :: after →
     Forall (λ l, indentedLine l = false) before →
     indentedLine line = true →
     detectIndent content = Z.of_nat (countSpaces line)) ∧
  (∀ before s after,
     strings_Split content newline = before ++ String tab s :: after →
     detectIndent content = detectIndent_lines (before ++ after)) ∧
  (∀ n s, countSpaces (String.concat "" (replicate n " ") +:+ String tab s) = n).
Proof.
  unfold detectIndent. split_and!.
  - apply detectIndent_lines_pos.
  - intros H. rewrite <- (app_nil_r (strings_Split content newline)).
    by rewrite detectIndent_lines_skip.
  - intros before line after -> Hb Hl.
    by rewrite detectIndent_lines_skip, detectIndent_lines_cons, Hl.
  - intros before s after ->. induction before as [|l before IH].
    + cbn [app]. by rewrite detectIndent_lines_cons, indentedLine_tab.
    + change ((l :: before) ++ String tab s :: after)
        with (l :: (before ++ String tab s :: after)).
      change ((l :: before) ++ after) with (l :: (before ++ after)).
      rewrite !detectIndent_lines_cons. by rewrite IH.
  - intros n s. induction n as [|n IH]; [done|].
    cbn [replicate String.concat]. destruct n as [|n].
    + done.
    + cbn [replicate] in *. cbn [String.concat] in *.
      change (" " +:+ ?x) with (String space x) in *.
      change ((String space ?x) +:+ ?y) with (String space (x +:+ y)).
      cbn [countSpaces]. cbn. f_equal. apply IH.
Qed.

(** The claim as the spec words it fails: a single leading tab does not
    determine a width of 1; the line is skipped. *)
Lemma C8_counterexample_tab_line :
  detectIndent (String tab "key: value") ≠ 1%Z ∧
  detectIndent ("a:" +:+ nl +:+ String tab "b: 1" +:+ nl +:+ "    c: 2" +:+ nl) = 4%Z.
Proof. split; [discriminate|reflexivity]. Qed.

(** ** The companion file *)

(** C9 — a missing companion file is a silent no-op.  When nothing exists
    at [path], [updateCounterpartFile] returns [updated = false] and a nil
    error for every key list, whatever the YAML library would do; the file
    system it leaves is the one it found, so nothing is written and [path]
    still names nothing; and the block of [main] that called it prints the
    "does not exist, skipping" line on standard output, nothing on standard
    error, and leaves the exit status at 0. *)
Theorem C9_missing_companion_is_noop
    (yaml_Unmarshal : string → Node + string)
    (yaml_Encode : Z → Node → string + string)
    (fs : gmap string File) (path absPath vaultPath : string) (keys : list string) :
  fs !! path = None →
  updateCounterpartFile yaml_Unmarshal yaml_Encode fs path vaultPath keys
    = Some (fs, false, None) ∧
  (∀ fs' updated err,
     updateCounterpartFile yaml_Unmarshal yaml_Encode fs path vaultPath keys
       = Some (fs', updated, err) →
     fs' = fs ∧ fs' !! path = None ∧ updated = false ∧ err = None) ∧
  mainUpdateCounterpart yaml_Unmarshal yaml_Encode fs path absPath vaultPath keys
    = Some (mkOutcome fs
              ("Counterpart file " +:+ absPath +:+ " does not exist, skipping" +:+ nl)
              "" 0).
Proof.
  intros Hnone.
  assert (updateCounterpartFile yaml_Unmarshal yaml_Encode fs path vaultPath keys
          = Some (fs, false, None)) as Hret.
  { unfold updateCounterpartFile, os_Stat_IsNotExist. by rewrite Hnone. }
  split_and!.
  - done.
  - intros fs' updated err. rewrite Hret. by intros [= <- <- <-].
  - unfold mainUpdateCounterpart. by rewrite Hret.
Qed.

Lemma C9_missing_companion_is_noop_witness :
  let unmarshal := λ _ : string, inr "not called" : Node + string in
  let encode := λ (_ : Z) (_ : Node), inr "not called" : string + string in
  let fs : gmap string File := {[ "app-secrets.enc.yaml" := RegularFile "k: v" ]} in
  updateCounterpartFile unmarshal encode fs "app.yaml" "secret/test" ["key"]
    = Some (fs, false, None) ∧
  (∀ fs' updated err,
     updateCounterpartFile unmarshal encode fs "app.yaml" "secret/test" ["key"]
       = Some (fs', updated, err) →
     fs' = fs ∧ fs' !! "app.yaml" = None ∧ updated = false ∧ err = None) ∧
  mainUpdateCounterpart unmarshal encode fs "app.yaml" "/work/app.yaml" "secret/test" ["key"]
    = Some (mkOutcome fs
              ("Counterpart file " +:+ "/work/app.yaml" +:+ " does not exist, skipping" +:+ nl)
              "" 0).
Proof.
  intros unmarshal encode fs.
  apply (C9_missing_companion_is_noop unmarshal encode fs "app.yaml" "/work/app.yaml"
           "secret/test" ["key"]).
  reflexivity.
Defined.

(** ** Dry-run preview *)

Lemma map_keys_Permutation (d1 d2 : gmap string GoValue) :
  dom d1 = dom d2 → (map_to_list d1).*1 ≡ₚ (map_to_list d2).*1.
Proof.
  intros Hdom. apply NoDup_Permutation; [apply NoDup_fst_map_to_list..|].
  intros k. rewrite !list_elem_of_fmap.
  assert (∀ d : gmap string GoValue,
            (∃ y, k = y.1 ∧ y ∈ map_to_list d) ↔ k ∈ dom d) as Hiff.
  { intros d. rewrite elem_of_dom. split.
    - intros ([k' v] & -> & Hin). apply elem_of_map_to_list in Hin. by exists v.
    - intros [v Hv]. exists (k, v). split; [done|]. by apply elem_of_map_to_list. }
  by rewrite !Hiff, Hdom.
Qed.

(** Sorting does not depend on the order the map yields its keys in. *)
Lemma sort_Strings_Permutation l1 l2 :
  l1 ≡ₚ l2 → sort_Strings l1 = sort_Strings l2.
Proof.
  intros Hp. unfold sort_Strings.
  apply (Sorted_unique String.le); [apply Sorted_merge_sort; apply _..|].
  by rewrite !merge_sort_Permutation.
Qed.

Lemma elem_of_sort_Strings k l : k ∈ sort_Strings l ↔ k ∈ l.
Proof. unfold sort_Strings. by rewrite merge_sort_Permutation. Qed.

Lemma foldr_append_app (l1 l2 : list string) :
  foldr String.append "" (l1 ++ l2) =
    foldr String.append "" l1 +:+ foldr String.append "" l2.
Proof.
  induction l1 as [|x l1 IH]; [done|]. cbn [foldr app].
  rewrite IH. symmetry. apply string_app_assoc.
Qed.

Lemma dryRunLine_sameShape k v1 v2 :
  sameShape v1 v2 → dryRunLine k v1 = dryRunLine k v2.
Proof.
  intros [Ht Hl]. destruct v1, v2; cbn in Ht; try discriminate; try done.
  cbn. by rewrite (Hl _ _ eq_refl eq_refl).
Qed.

(** C7 — the preview never shows a value.  The line printed for a
    string-valued key is made of the key, the word [string] and the length
    of the value; and two maps with the same keys, the same kinds of values
    and the same string lengths give the same output, character for
    character, whatever the secrets are. *)
Theorem C7_dry_run_hides_values path mount (d1 d2 : gmap string GoValue) :
  dom d1 = dom d2 →
  (∀ k v1 v2, d1 !! k = Some v1 → d2 !! k = Some v2 → sameShape v1 v2) →
  printDryRun path mount d1 = printDryRun path mount d2 ∧
  ∀ k s, d1 !! k = Some (VString s) →
    ∃ before after,
      printDryRun path mount d1 =
        before +:+ ("  " +:+ k +:+ " = <string, " +:+ pretty (len s) +:+ " chars>" +:+ nl)
               +:+ after.
Proof.
  intros Hdom Hshape. split.
  - unfold printDryRun. cbv zeta.
    rewrite (sort_Strings_Permutation _ _ (map_keys_Permutation _ _ Hdom)).
    assert (size d1 = size d2) as ->.
    { rewrite <- !size_dom. by rewrite Hdom. }
    enough (((λ k, dryRunLine k (default VNil (d1 !! k)))
               <$> sort_Strings (map_to_list d2).*1) =
            ((λ k, dryRunLine k (default VNil (d2 !! k)))
               <$> sort_Strings (map_to_list d2).*1)) as -> by done.
    apply list_fmap_ext. intros i k Hk%list_elem_of_lookup_2.
    apply elem_of_sort_Strings, list_elem_of_fmap in Hk as ([k' v2] & -> & Hin).
    apply elem_of_map_to_list in Hin. cbn [fst].
    assert (is_Some (d1 !! k')) as [v1 Hv1].
    { apply elem_of_dom. rewrite Hdom. apply elem_of_dom. by exists v2. }
    rewrite Hv1, Hin. cbn. by apply dryRunLine_sameShape, (Hshape k').
  - intros k s Hk. unfold printDryRun. cbv zeta.
    assert (k ∈ sort_Strings (map_to_list d1).*1) as Hin.
    { apply elem_of_sort_Strings, list_elem_of_fmap. exists (k, VString s).
      split; [done|]. by apply elem_of_map_to_list. }
    apply list_elem_of_split in Hin as (l1 & l2 & ->).
    rewrite fmap_app, foldr_append_app. cbn [fmap list_fmap foldr].
    rewrite Hk. change (default VNil (Some (VString s))) with (VString s).
    cbn [dryRunLine].
    exists ("[dry-run] Would write to Vault path: " +:+ mount +:+ "/" +:+ path +:+ nl +:+
            "[dry-run] " +:+ pretty (size d1) +:+ " secrets:" +:+ nl +:+
            foldr String.append ""
              ((λ k, dryRunLine k (default VNil (d1 !! k))) <$> l1)),
           (foldr String.append ""
              ((λ k, dryRunLine k (default VNil (d1 !! k))) <$> l2)).
    by rewrite !string_app_assoc.
Qed.

Lemma C7_dry_run_hides_values_witness :
  let d1 : gmap string GoValue :=
    {[ "password" := VString "hunter2"; "port" := VInt 5432 ]} in
  let d2 : gmap string GoValue :=
    {[ "password" := VString "s3cr3t!"; "port" := VInt 1 ]} in
  printDryRun "myapp" "secret" d1 = printDryRun "myapp" "secret" d2 ∧
  ∀ k s, d1 !! k = Some (VString s) →
    ∃ before after,
      printDryRun "myapp" "secret" d1 =
        before +:+ ("  " +:+ k +:+ " = <string, " +:+ pretty (len s) +:+ " chars>" +:+ nl)
               +:+ after.
Proof.
  intros d1 d2.
  apply (C7_dry_run_hides_values "myapp" "secret" d1 d2).
  - unfold d1, d2. by rewrite !dom_insert_L, !dom_singleton_L.
  - intros k v1 v2. unfold d1, d2.
    destruct (decide (k = "password")) as [->|Hp].
    + rewrite !lookup_insert_eq. intros [= <-] [= <-]. split; [reflexivity|].
      intros s1 s2 [= <-] [= <-]. reflexivity.
    + rewrite !(lookup_insert_ne _ "password") by done.
      destruct (decide (k = "port")) as [->|Hq].
      * rewrite !lookup_singleton_eq. intros [= <-] [= <-]. split; [reflexivity|].
        intros s1 s2 [=].
      * rewrite !lookup_singleton_ne by done. intros [=].
Defined.

Example printDryRun_example :
  printDryRun "myapp" "secret"
    ({[ "password" := VString "hunter2"; "port" := VInt 5432; "tls" := VBool true ]}
       : gmap string GoValue)
  = "[dry-run] Would write to Vault path: secret/myapp" +:+ nl +:+
    "[dry-run] 3 secrets:" +:+ nl +:+
    "  password = <string, 7 chars>" +:+ nl +:+
    "  port = <int>" +:+ nl +:+
    "  tls = <bool>" +:+ nl.
Proof. vm_compute. reflexivity. Qed.

(** ** Flattener *)

(** The loop of [flattenRecursive], iteration by iteration. *)
Lemma flattenRecursive_nil prefix result :
  flattenRecursive [] prefix result = result.
Proof. done. Qed.

Lemma flattenRecursive_cons key value rest prefix result :
  flattenRecursive ((key, value) :: rest) prefix result =
    flattenRecursive rest prefix
      (match value with
       | VMap v => flattenRecursive v (fullKey prefix key) result
       | _ => <[fullKey prefix key := value]> result
       end).
Proof. by destruct value. Qed.

(** Induction on values that goes under the entries of a map. *)
Lemma GoValue_map_ind (P : GoValue → Prop) :
  (∀ v, isMap v = false → P v) →
  (∀ entries, Forall (λ kv, P kv.2) entries → P (VMap entries)) →
  ∀ v, P v.
Proof.
  intros Hleaf Hmap. fix IH 1. intros v. destruct v as [| | | | | | elems|entries].
  1-7: by apply Hleaf.
  apply Hmap. induction entries as [|[k v] entries IHe]; constructor.
  - apply IH.
  - apply IHe.
Qed.

Lemma flattenEntry_leaves v :
  ∀ fk result,
    flattenEntry v fk result = foldl (insertLeaf fk) result (leavesUnder v).
Proof.
  induction v as [v Hv|entries IH] using GoValue_map_ind; intros fk result.
  - by destruct v.
  - change (flattenEntry (VMap entries) fk result)
      with (flattenRecursive entries fk result).
    cbn [leavesUnder]. revert result.
    induction IH as [|[k v] entries Hv _ IHe]; intros result; [done|].
    assert (flattenRecursive ((k, v) :: entries) fk result =
            flattenRecursive entries fk (flattenEntry v (fullKey fk k) result)) as ->
      by done.
    cbn [flat_map]. rewrite foldl_app, <- IHe. f_equal.
    cbn [snd fst] in *. rewrite Hv, foldl_fmap. done.
Qed.

Lemma strings_Join_cons k q rest sep :
  strings_Join (k :: q :: rest) sep = k +:+ sep +:+ strings_Join (q :: rest) sep.
Proof. done. Qed.

Lemma strings_Join_merge k q rest :
  strings_Join ((k +:+ "." +:+ q) :: rest) "." = k +:+ "." +:+ strings_Join (q :: rest) ".".
Proof.
  destruct rest as [|r rest]; [done|].
  rewrite !strings_Join_cons. by rewrite !string_app_assoc.
Qed.

Lemma string_app_not_empty s t : s ≠ "" → s +:+ t ≠ "".
Proof. by destruct s. Qed.

(** Below a prefix that is not empty the code's key is the joined path. *)
Lemma codeKey_nonempty k path :
  k ≠ "" → codeKey k path = strings_Join (k :: path) ".".
Proof.
  revert k. induction path as [|q path IH]; intros k Hk; [done|].
  unfold codeKey in *. cbn [foldl]. unfold fullKey at 2.
  destruct (String.eqb_spec k "") as [|_]; [done|].
  rewrite IH by by apply string_app_not_empty.
  apply strings_Join_merge.
Qed.

Lemma codeKey_top k path :
  k ≠ "" ∨ path = [] → codeKey "" (k :: path) = strings_Join (k :: path) ".".
Proof.
  intros H. unfold codeKey. cbn [foldl].
  change (fullKey "" k) with k. destruct H as [H| ->]; [|done].
  by apply codeKey_nonempty.
Qed.

Lemma leavesUnder_not_map v : isMap v = false → leavesUnder v = [([], v)].
Proof. by destruct v. Qed.

(** Inserting a list of entries one after the other. *)
Lemma foldl_insert_list_to_map (l : list (string * GoValue)) (r : gmap string GoValue) :
  foldl (λ r kv, <[kv.1 := kv.2]> r) r l = list_to_map (reverse l) ∪ r.
Proof.
  revert r. induction l as [|[k v] l IH]; intros r.
  - cbn. by rewrite (left_id_L ∅ (∪)).
  - cbn [foldl]. rewrite IH, reverse_cons, list_to_map_app. cbn.
    rewrite <- (assoc_L (∪)). f_equal.
    by rewrite <- insert_union_l, (left_id_L ∅ (∪)).
Qed.

Lemma Flatten_leaves data :
  Flatten data = foldl (insertLeaf "") ∅ (leaves data).
Proof. apply flattenEntry_leaves. Qed.

(** Where no top-level mapping sits under the empty key, the code's keys are
    the joined paths. *)
Lemma leaves_codeKey data :
  Forall (λ kv, isMap kv.2 = true → kv.1 ≠ "") data →
  Forall (λ pv, codeKey "" pv.1 = strings_Join pv.1 ".") (leaves data).
Proof.
  unfold leaves. cbn [leavesUnder]. induction 1 as [|[k v] data Hk _ IH]; [constructor|].
  cbn [flat_map]. apply Forall_app. split; [|done].
  apply Forall_fmap, Forall_forall. intros [p x] Hin. cbn [fst snd] in *.
  apply codeKey_top. destruct (isMap v) eqn:E; [left; by apply Hk|].
  right. rewrite (leavesUnder_not_map v E) in Hin.
  apply list_elem_of_singleton in Hin. by simplify_eq.
Qed.

Lemma foldl_insertLeaf_joined (L : list (list string * GoValue)) r :
  Forall (λ pv, codeKey "" pv.1 = strings_Join pv.1 ".") L →
  foldl (insertLeaf "") r L = foldl (λ r kv, <[kv.1 := kv.2]> r) r (joined <$> L).
Proof.
  intros H. revert r. induction H as [|pv L Hpv _ IH]; intros r; [done|].
  cbn [foldl fmap list_fmap]. rewrite <- IH. unfold insertLeaf at 2.
  by rewrite Hpv.
Qed.

(** C6 (as amended) — flatten totality.  For an input mapping in which no
    two leaves have the same joined path and no mapping value sits under
    the empty key at the top level, every leaf that is reached through
    mapping values only appears exactly once in the output, under its path
    joined with "."; a value that is not a mapping, a sequence included, is
    stored as it is; and an empty input gives an empty output. *)
Theorem C6_flatten_totality data :
  Forall (λ kv, isMap kv.2 = true → kv.1 ≠ "") data →
  NoDup (joined <$> leaves data).*1 →
  map_to_list (Flatten data) ≡ₚ joined <$> leaves data ∧
  (∀ path v, (path, v) ∈ leaves data →
     Flatten data !! strings_Join path "." = Some v) ∧
  size (Flatten data) = List.length (leaves data) ∧
  (∀ k elems, (k, VSlice elems) ∈ data → Flatten data !! k = Some (VSlice elems)) ∧
  (data = [] → Flatten data = ∅).
Proof.
  intros Hkeys Hnodup.
  assert (Flatten data = list_to_map (reverse (joined <$> leaves data))) as HF.
  { rewrite Flatten_leaves, foldl_insertLeaf_joined by by apply leaves_codeKey.
    by rewrite foldl_insert_list_to_map, (right_id_L ∅ (∪)). }
  assert (NoDup (reverse (joined <$> leaves data)).*1) as Hnodup'.
  { by rewrite fmap_reverse, reverse_Permutation. }
  assert (map_to_list (Flatten data) ≡ₚ joined <$> leaves data) as Hperm.
  { rewrite HF, map_to_list_to_map by done. apply reverse_Permutation. }
  assert (∀ path v, (path, v) ∈ leaves data →
            Flatten data !! strings_Join path "." = Some v) as Hlookup.
  { intros path v Hin. apply elem_of_map_to_list. rewrite Hperm.
    apply list_elem_of_fmap. by exists (path, v). }
  split_and!.
  - done.
  - done.
  - rewrite <- (length_fmap joined (leaves data)), <- length_map_to_list.
    by rewrite Hperm.
  - intros k elems Hin. apply (Hlookup [k]).
    unfold leaves. cbn [leavesUnder]. apply list_elem_of_In, in_flat_map.
    exists (k, VSlice elems). split; [by apply list_elem_of_In|]. cbn. by left.
  - by intros ->.
Qed.

Lemma C6_flatten_totality_witness :
  let data :=
    [("admin", VMap [("oauth2", VMap [("clientID", VString "abc123");
                                      ("clientSecret", VString "secret")]);
                     ("publicAddress", VString "https://example.com")]);
     ("db", VMap [("url", VString "postgres://localhost")]);
     ("ports", VSlice [VInt 80; VInt 443])] in
  map_to_list (Flatten data) ≡ₚ joined <$> leaves data ∧
  (∀ path v, (path, v) ∈ leaves data →
     Flatten data !! strings_Join path "." = Some v) ∧
  size (Flatten data) = List.length (leaves data) ∧
  (∀ k elems, (k, VSlice elems) ∈ data → Flatten data !! k = Some (VSlice elems)) ∧
  (data = [] → Flatten data = ∅).
Proof.
  intros data. apply (C6_flatten_totality data).
  - repeat constructor; discriminate.
  - apply (bool_decide_unpack _). vm_compute. reflexivity.
Defined.

(** The claim as the spec words it fails where two paths join to the same
    dotted key: the map [{"a": {"b": 1}, "a.b": 2}] has two leaves and its
    flattening one entry, in whichever order the map is walked. *)
Lemma C6_counterexample_colliding_paths :
  let data1 := [("a", VMap [("b", VInt 1)]); ("a.b", VInt 2)] in
  let data2 := [("a.b", VInt 2); ("a", VMap [("b", VInt 1)])] in
  ¬ (∀ path v, (path, v) ∈ leaves data1 →
       Flatten data1 !! strings_Join path "." = Some v) ∧
  ¬ (∀ path v, (path, v) ∈ leaves data2 →
       Flatten data2 !! strings_Join path "." = Some v) ∧
  List.length (leaves data1) = 2 ∧ size (Flatten data1) = 1 ∧
  size (Flatten data2) = 1.
Proof.
  intros data1 data2. split_and!.
  - intros H. pose proof (H ["a"; "b"] (VInt 1)) as H1.
    assert (Flatten data1 !! "a.b" = Some (VInt 2)) as H2 by (vm_compute; reflexivity).
    change (strings_Join ["a"; "b"] ".") with "a.b" in H1.
    rewrite H2 in H1. discriminate H1. vm_compute. left.
  - intros H. pose proof (H ["a.b"] (VInt 2)) as H1.
    assert (Flatten data2 !! "a.b" = Some (VInt 1)) as H2 by (vm_compute; reflexivity).
    change (strings_Join ["a.b"] ".") with "a.b" in H1.
    rewrite H2 in H1. discriminate H1. vm_compute. left.
  - reflexivity.
  - vm_compute. reflexivity.
  - vm_compute. reflexivity.
Qed.

(** The tests of [flatten_test.go]. *)
Example TestFlatten_nested :
  Flatten [("admin", VMap [("oauth2", VMap [("clientID", VString "abc123");
                                            ("clientSecret", VString "secret")]);
                           ("publicAddress", VString "https://example.com")]);
           ("db", VMap [("url", VString "postgres://localhost")])]
  = list_to_map [("admin.oauth2.clientID", VString "abc123");
                 ("admin.oauth2.clientSecret", VString "secret");
                 ("admin.publicAddress", VString "https://example.com");
                 ("db.url", VString "postgres://localhost")].
Proof. vm_compute. reflexivity. Qed.

(** ** A sequence of patches *)

(** Appending one entry to a paired-up [Content]. *)
Lemma keyAt_app_pair content k v i key :
  Nat.even (List.length content) = true →
  keyAt (content ++ [k; v]) i key ↔
  keyAt content i key ∨ (i = List.length content ∧ Value k = key).
Proof.
  intros Hlen. split.
  - intros [He (x & Hx & Hv)].
    destruct (decide (i < List.length content)) as [Hlt|Hge].
    + left. rewrite lookup_app_l in Hx by done. split; [done|]. by exists x.
    + rewrite lookup_app_r in Hx by lia.
      destruct (i - List.length content) as [|[|d]] eqn:Ed; cbn in Hx.
      * right. simplify_eq. split; [lia|done].
      * exfalso. assert (i = S (List.length content)) as -> by lia.
        rewrite Nat.even_succ, <- Nat.negb_even, Hlen in He. done.
      * done.
  - intros [[He (x & Hx & Hv)]|[-> Hv]].
    + split; [done|]. exists x. split; [|done]. by apply lookup_app_l_Some.
    + split; [done|]. exists k. split; [|done].
      rewrite lookup_app_r by lia. by rewrite Nat.sub_diag.
Qed.

Lemma hasDottedKey_app_pair content k v :
  Nat.even (List.length content) = true →
  hasDottedKey (content ++ [k; v]) ↔
  hasDottedKey content ∨ strings_Contains (Value k) dot = true.
Proof.
  intros Hlen. split.
  - intros (i & x & He & Hx & Hc).
    destruct (decide (i < List.length content)) as [Hlt|Hge].
    + left. rewrite lookup_app_l in Hx by done. by exists i, x.
    + rewrite lookup_app_r in Hx by lia.
      destruct (i - List.length content) as [|[|d]] eqn:Ed; cbn in Hx.
      * right. by simplify_eq.
      * exfalso. assert (i = S (List.length content)) as -> by lia.
        rewrite Nat.even_succ, <- Nat.negb_even, Hlen in He. done.
      * done.
  - intros [(i & x & He & Hx & Hc)|Hc].
    + exists i, x. split_and!; [done| |done]. by apply lookup_app_l_Some.
    + exists (List.length content), k. split_and!; [done| |done].
      rewrite lookup_app_r by lia. by rewrite Nat.sub_diag.
Qed.

(** At a nested-style level no key is a dotted path. *)
Lemma not_dotted_not_hasKey content key :
  ¬ hasDottedKey content → strings_Contains key dot = true → ¬ hasKey content key.
Proof.
  intros Hnd Hc [i [He (k & Hk & Hv)]]. apply Hnd. exists i, k. by subst.
Qed.

Lemma Split_head_no_dot key s p :
  strings_Split key dot = s :: p →
  strings_Contains s dot = false ∧ Forall (λ w, strings_Contains w dot = false) p.
Proof.
  intros E. pose proof (strings_Split_no_sep key dot) as H. rewrite E in H.
  by inversion H.
Qed.

Lemma Split_Join key : strings_Join (strings_Split key dot) "." = key.
Proof. apply (strings_Join_Split key dot). Qed.

Lemma nestedLeaf_nestedChain path v : nestedLeaf (nestedChain path v) path v.
Proof.
  induction path as [|k path IH]; [done|]. cbn [nestedLeaf nestedChain].
  split; [done|]. exists 0, (nestedChain path v). split_and!; [|done|done].
  apply findKey_Some. cbn. by rewrite String.eqb_refl.
Qed.

Lemma hasKey_single a x key : hasKey [scalar a; x] key ↔ a = key.
Proof.
  split.
  - intros [i [[-> H]|(j & -> & Hj)]%keyAt_cons2]; [done|]. by apply keyAt_nil in Hj.
  - intros <-. exists 0. apply keyAt_cons2. by left.
Qed.

Lemma firstKeyAt_head k x rest key :
  Value k = key → firstKeyAt (k :: x :: rest) 0 key.
Proof. intros Hv. apply findKey_Some. cbn. rewrite Hv. by rewrite String.eqb_refl. Qed.

Lemma firstKeyAt_second a x b y :
  a ≠ b → firstKeyAt [scalar a; x; scalar b; y] 2 b.
Proof.
  intros Hne. apply findKey_Some. cbn.
  apply String.eqb_neq in Hne. by rewrite Hne, String.eqb_refl.
Qed.

Lemma strictPrefix_cons a p1 b p2 :
  strictPrefix (a :: p1) (b :: p2) ↔ a = b ∧ strictPrefix p1 p2.
Proof.
  split.
  - intros (ext & Hne & [= -> ->]). split; [done|]. by exists ext.
  - intros [-> (ext & Hne & ->)]. by exists ext.
Qed.

(** Patching a second path into the chain made for a first one: the call
    returns, the chain is still a mapping, and the leaf is in place unless
    the first path is a proper prefix of the second, where rule 2 aborts. *)
Lemma upsert_into_chain p1 :
  ∀ p2 v1 v2,
    p1 ≠ [] → p2 ≠ [] →
    Forall (λ w, strings_Contains w dot = false) p1 →
    Forall (λ w, strings_Contains w dot = false) p2 →
    ∃ M, upsertNestedKey (nestedChain p1 v1) p2 v2 = Some M ∧
         Kind M = MappingNode ∧
         (¬ strictPrefix p1 p2 → nestedLeaf M p2 v2) ∧
         (strictPrefix p1 p2 → M = nestedChain p1 v1).
Proof.
  induction p1 as [|a p1' IH]; intros p2 v1 v2 Hne1 Hne2 Hd1 Hd2; [done|].
  destruct p2 as [|b p2']; [done|].
  inversion Hd1 as [|? ? Ha Hd1']; inversion Hd2 as [|? ? Hb Hd2']; subst.
  set (node := nestedChain (a :: p1') v1).
  assert (Content node = [scalar a; nestedChain p1' v1]) as Hc by done.
  assert (Kind node = MappingNode) as Hk by done.
  assert (hasFlatKeys node = false) as Hflat.
  { unfold hasFlatKeys. rewrite Hc. cbn. by rewrite Ha. }
  destruct p2' as [|q p2''].
  - (* one segment left *)
    destruct (decide (a = b)) as [<-|Hab].
    + exists (setContent node (<[0 + 1 := assignScalar (nestedChain p1' v1) v2]> (Content node))).
      split_and!.
      * apply upsert_flat_match; [done|done| |by rewrite Hc].
        rewrite Hc. by apply firstKeyAt_head.
      * done.
      * intros _. split; [done|].
        exists 0, (assignScalar (nestedChain p1' v1) v2). rewrite Hc.
        split_and!; [by apply firstKeyAt_head|done|done].
      * intros [_ (ext & Hext & E)]%strictPrefix_cons. by destruct p1', ext.
    + exists (setContent node (Content node ++ [newNode ScalarNode b; nestedChain [] v2])).
      split_and!.
      * rewrite (upsert_new node b [] v2), Hflat; [done|done| |].
        -- rewrite Hc. by intros ?%hasKey_single.
        -- rewrite Hc. by intros ?%hasKey_single.
      * done.
      * intros _. split; [done|].
        exists 2, (nestedChain [] v2). rewrite Hc.
        split_and!; [by apply firstKeyAt_second|done|done].
      * by intros [? _]%strictPrefix_cons.
  - (* more segments left: the joined path has a dot, the chain's key none *)
    assert (¬ hasKey (Content node) (strings_Join (b :: q :: p2'') ".")) as Hnoflat.
    { rewrite Hc. intros E%hasKey_single.
      pose proof (strings_Join_dotted b (q :: p2'') ltac:(done)) as Hdot.
      rewrite <- E, Ha in Hdot. done. }
    destruct (decide (a = b)) as [<-|Hab].
    + destruct p1' as [|a' p1''].
      * (* the chain's value is the scalar of the first key: abort *)
        exists node. split_and!.
        -- apply (upsert_abort node a (q :: p2'') v2 0 (nestedChain [] v1));
             [done|done|done| |by rewrite Hc|done].
           rewrite Hc. by apply firstKeyAt_head.
        -- done.
        -- intros Hnp. exfalso. apply Hnp. apply strictPrefix_cons.
           split; [done|]. by exists (q :: p2'').
        -- done.
      * destruct (IH (q :: p2'') v1 v2) as (M' & HM' & HkM' & Hleaf & Hsame);
          [done|done|done|done|].
        exists (setContent node (<[0 + 1 := M']> (Content node))). split_and!.
        -- rewrite (upsert_recurse node a (q :: p2'') v2 0 (nestedChain (a' :: p1'') v1));
             [by rewrite HM'|done|done|done| |by rewrite Hc|done].
           rewrite Hc. by apply firstKeyAt_head.
        -- done.
        -- intros Hnp. split; [done|]. exists 0, M'. rewrite Hc.
           split_and!; [by apply firstKeyAt_head|done|].
           apply Hleaf. intros Hp. apply Hnp. by apply strictPrefix_cons.
        -- intros [_ Hp]%strictPrefix_cons. rewrite (Hsame Hp). by rewrite Hc.
    + exists (setContent node (Content node ++
                [newNode ScalarNode b; nestedChain (q :: p2'') v2])).
      split_and!.
      * rewrite (upsert_new node b (q :: p2'') v2), Hflat; [done|done|done|].
        rewrite Hc. by intros ?%hasKey_single.
      * done.
      * intros _. split; [done|].
        exists 2, (nestedChain (q :: p2'') v2). rewrite Hc.
        split_and!; [by apply firstKeyAt_second|done|].
        apply nestedLeaf_nestedChain.
      * by intros [? _]%strictPrefix_cons.
Qed.

(** C3 (as amended) — sequential visibility.  The keys are patched one
    after the other in the order of the list, each on the tree the keys
    before it left.  For two dotted keys of two or more segments that share
    a first segment [s], new at a nested-style level: the first key appends
    one entry [s] with a chain of mappings, the second key is patched inside
    that mapping, and the level ends with exactly one entry named [s].  The
    second key's leaf is in place there, unless the first key's path is a
    proper prefix of the second's: then rule 2 aborts on the first key's
    scalar and the mapping is left as the first key made it. *)
Theorem C3_sequential_visibility root vaultPath key1 key2 s p1 p2 :
  Kind root = MappingNode →
  Nat.even (List.length (Content root)) = true →
  ¬ hasDottedKey (Content root) →
  ¬ hasKey (Content root) s →
  strings_Split key1 dot = s :: p1 → p1 ≠ [] →
  strings_Split key2 dot = s :: p2 → p2 ≠ [] →
  (∀ r keys1 keys2,
     patchKeys r vaultPath (keys1 ++ keys2) =
       patchKeys r vaultPath keys1 ≫= λ r', patchKeys r' vaultPath keys2) ∧
  patchKeys root vaultPath [key1] =
    Some (setContent root
            (Content root ++
               [newNode ScalarNode s; nestedChain p1 (vaultRef vaultPath key1)])) ∧
  ∃ M,
    upsertNestedKey (nestedChain p1 (vaultRef vaultPath key1)) p2
                    (vaultRef vaultPath key2) = Some M ∧
    Kind M = MappingNode ∧
    patchKeys root vaultPath [key1; key2] =
      Some (setContent root (Content root ++ [newNode ScalarNode s; M])) ∧
    (∀ i, keyAt (Content root ++ [newNode ScalarNode s; M]) i s ↔
          i = List.length (Content root)) ∧
    (¬ strictPrefix p1 p2 → nestedLeaf M p2 (vaultRef vaultPath key2)) ∧
    (strictPrefix p1 p2 → M = nestedChain p1 (vaultRef vaultPath key1)).
Proof.
  intros Hk Heven Hnd Hs E1 Hp1 E2 Hp2.
  destruct (Split_head_no_dot _ _ _ E1) as [Hsdot Hd1].
  destruct (Split_head_no_dot _ _ _ E2) as [_ Hd2].
  set (v1 := vaultRef vaultPath key1). set (v2 := vaultRef vaultPath key2).
  set (root1 := setContent root (Content root ++ [newNode ScalarNode s; nestedChain p1 v1])).
  assert (upsertNestedKey root (strings_Split key1 dot) v1 = Some root1) as Hstep1.
  { rewrite E1, (upsert_new root s p1 v1); [|done| |done].
    - assert (hasFlatKeys root = false) as -> by by apply hasFlatKeys_loop_false.
      done.
    - apply not_dotted_not_hasKey; [done|]. by apply strings_Join_dotted. }
  destruct (upsert_into_chain p1 p2 v1 v2) as (M & HM & HkM & Hleaf & Hsame);
    [done..|].
  assert (firstKeyAt (Content root1) (List.length (Content root)) s) as Hfirst.
  { split.
    - apply keyAt_app_pair; [done|]. by right.
    - intros j Hj [Hj'|[-> _]]%keyAt_app_pair; [|lia|done].
      apply Hs. by exists j. }
  assert (Content root1 !! (List.length (Content root) + 1) = Some (nestedChain p1 v1))
    as Hchild.
  { unfold root1. rewrite Content_setContent, lookup_app_r by lia.
    by replace (List.length (Content root) + 1 - List.length (Content root)) with 1 by lia. }
  assert (upsertNestedKey root1 (strings_Split key2 dot) v2 =
          Some (setContent root (Content root ++ [newNode ScalarNode s; M]))) as Hstep2.
  { rewrite E2, (upsert_recurse root1 s p2 v2 (List.length (Content root)) (nestedChain p1 v1));
      [|done|done| |done|done|by destruct p1].
    - rewrite HM. cbn [fmap option_fmap option_map]. unfold root1.
      rewrite setContent_setContent, Content_setContent.
      f_equal. f_equal. rewrite insert_app_r_alt by lia.
      by replace (List.length (Content root) + 1 - List.length (Content root)) with 1 by lia.
    - apply not_dotted_not_hasKey; [|by apply strings_Join_dotted].
      unfold root1. rewrite Content_setContent.
      intros [?|Hc]%hasDottedKey_app_pair; [done| |done].
      cbn in Hc. by rewrite Hsdot in Hc. }
  split_and!.
  - intros r keys1 keys2. apply patchKeys_app.
  - by rewrite patchKeys_one.
  - exists M. split_and!; [done|done| | |done|done].
    + cbn [patchKeys]. fold v1 v2. rewrite Hstep1. cbn [mbind option_bind].
      rewrite Hstep2. done.
    + intros i. rewrite keyAt_app_pair by done. split.
      * intros [Hi|[-> _]]; [|done]. exfalso. apply Hs. by exists i.
      * intros ->. by right.
Qed.

Lemma C3_sequential_visibility_witness :
  let root := mapping [scalar "existing"; scalar "v"] in
  (∀ r keys1 keys2,
     patchKeys r "secret/app" (keys1 ++ keys2) =
       patchKeys r "secret/app" keys1 ≫= λ r', patchKeys r' "secret/app" keys2) ∧
  patchKeys root "secret/app" ["new.a"] =
    Some (setContent root
            (Content root ++
               [newNode ScalarNode "new"; nestedChain ["a"] (vaultRef "secret/app" "new.a")])) ∧
  ∃ M,
    upsertNestedKey (nestedChain ["a"] (vaultRef "secret/app" "new.a")) ["b"]
                    (vaultRef "secret/app" "new.b") = Some M ∧
    Kind M = MappingNode ∧
    patchKeys root "secret/app" ["new.a"; "new.b"] =
      Some (setContent root (Content root ++ [newNode ScalarNode "new"; M])) ∧
    (∀ i, keyAt (Content root ++ [newNode ScalarNode "new"; M]) i "new" ↔
          i = List.length (Content root)) ∧
    (¬ strictPrefix ["a"] ["b"] → nestedLeaf M ["b"] (vaultRef "secret/app" "new.b")) ∧
    (strictPrefix ["a"] ["b"] → M = nestedChain ["a"] (vaultRef "secret/app" "new.a")).
Proof.
  intros root.
  apply (C3_sequential_visibility root "secret/app" "new.a" "new.b" "new" ["a"] ["b"]).
  - reflexivity.
  - reflexivity.
  - apply hasFlatKeys_loop_false. reflexivity.
  - apply findKey_None. reflexivity.
  - reflexivity.
  - discriminate.
  - reflexivity.
  - discriminate.
Defined.

(** The claim as the spec words it fails when the first key's path is a
    proper prefix of the second's: after "new.a", the key "new.a.b" finds
    the scalar of "new.a" under [a] and is dropped; no scalar of the
    resulting tree holds its reference. *)
Lemma C3_counterexample_prefix_key :
  let root := mapping [scalar "existing"; scalar "v"] in
  let made := mapping [scalar "a"; scalar "ref+vault://secret/app/new.a#value"] in
  patchKeys root "secret/app" ["new.a"; "new.a.b"] =
    Some (mapping [scalar "existing"; scalar "v"; scalar "new"; made]) ∧
  ¬ nestedLeaf made ["a"; "b"] "ref+vault://secret/app/new.a.b#value" ∧
  mentions "ref+vault://secret/app/new.a.b#value"
           (mapping [scalar "existing"; scalar "v"; scalar "new"; made]) = false.
Proof.
  intros root made. split_and!.
  - reflexivity.
  - intros [_ (i & child & Hi & Hchild & Hk & _)].
    assert (i = 0) as ->.
    { apply (firstKeyAt_unique (Content made) "a"); [done|].
      apply findKey_Some. reflexivity. }
    cbn in Hchild. injection Hchild as <-. discriminate Hk.
  - reflexivity.
Qed.

(** ** What a patch preserves *)

Lemma Entries_refl l : Entries l l.
Proof.
  induction l as [| k | k v l IH] using list_pair_ind; try constructor; [|done].
  apply ValueKept_patched, Preserved_same.
Qed.

Lemma Entries_length l l' : Entries l l' → List.length l' = List.length l.
Proof. induction 1; cbn; congruence. Qed.

(** Replacing the value that follows the key at the even position [i]. *)
Lemma Entries_insert l i old new :
  Nat.even i = true → l !! (i + 1) = Some old → ValueKept old new →
  Entries l (<[i + 1 := new]> l).
Proof.
  revert i. induction l as [| k | k v l IH] using list_pair_ind; intros i He Hold Hkept.
  - done.
  - by destruct i.
  - destruct i as [|[|j]].
    + cbn in Hold. simplify_eq. cbn. constructor; [done|apply Entries_refl].
    + done.
    + cbn in *. constructor; [apply ValueKept_patched, Preserved_same|].
      by apply IH.
Qed.

Lemma Preserved_append n extra :
  Kind n = MappingNode → Preserved n (setContent n (Content n ++ extra)).
Proof. intros Hk. apply Preserved_mapping; [done|apply Entries_refl]. Qed.

Lemma Preserved_insert n i old new :
  Kind n = MappingNode → Nat.even i = true → Content n !! (i + 1) = Some old →
  ValueKept old new →
  Preserved n (setContent n (<[i + 1 := new]> (Content n))).
Proof.
  intros Hk He Hold Hkept.
  rewrite <- (app_nil_r (<[i + 1 := new]> (Content n))).
  apply Preserved_mapping; [done|]. by apply (Entries_insert _ _ old).
Qed.

Lemma findKey_even content key i :
  findKey content key 0 = Some i → Nat.even i = true.
Proof. intros [[He _] _]%findKey_Some. done. Qed.

(** One call of [upsertNestedKey] preserves the tree it is given. *)
Lemma upsert_Preserved keyPath :
  ∀ node value node',
    upsertNestedKey node keyPath value = Some node' → Preserved node node'.
Proof.
  induction keyPath as [|seg keyPath' IH]; intros node value node' H.
  - cbn in H. simplify_eq. constructor.
  - cbn [upsertNestedKey] in H. cbv zeta in H.
    destruct (Kind_eqb (Kind node) MappingNode) eqn:Hk; cbn [negb] in H;
      [|simplify_eq; constructor].
    apply Kind_eqb_eq in Hk.
    destruct (findKey (Content node) (strings_Join (seg :: keyPath') ".") 0)
      as [i|] eqn:Hflat.
    { unfold setScalarAt in H. destruct (Content node !! (i + 1)) as [old|] eqn:Hold;
        cbn [mbind option_bind] in H; [|done]. simplify_eq.
      apply (Preserved_insert _ _ old); [done|by apply findKey_even in Hflat|done|].
      constructor. }
    destruct (findKey (Content node) seg 0) as [i|] eqn:Hseg.
    { pose proof (findKey_even _ _ _ Hseg) as He. destruct keyPath' as [|s' kp'].
      - unfold setScalarAt in H. destruct (Content node !! (i + 1)) as [old|] eqn:Hold;
          cbn [mbind option_bind] in H; [|done]. simplify_eq.
        apply (Preserved_insert _ _ old); [done..|]. constructor.
      - destruct (Content node !! (i + 1)) as [child|] eqn:Hc; cbn [mbind option_bind] in H; [|done].
        destruct (Kind_eqb (Kind child) MappingNode); [|simplify_eq; constructor].
        destruct (upsertNestedKey child (s' :: kp') value) as [child'|] eqn:Hch;
          cbn [mbind option_bind] in H; [|done]. simplify_eq.
        apply (Preserved_insert _ _ child); [done..|].
        apply ValueKept_patched. by apply (IH _ value). }
    destruct (hasFlatKeys node); simplify_eq.
    + by apply Preserved_append.
    + rewrite addNestedKey_chain. by apply Preserved_append.
Qed.

Lemma Entries_app_inv l1 :
  ∀ l2 l', Entries (l1 ++ l2) l' → ∃ l1' l2', l' = l1' ++ l2' ∧ Entries l1 l1'.
Proof.
  induction l1 as [| k | k v l IH] using list_pair_ind; intros l2 l' H.
  - exists [], l'. split; [done|constructor].
  - cbn in H. inversion H; subst.
    + exists [k], []. split; [done|constructor].
    + exists [k], (v' :: rest'). split; [done|constructor].
  - cbn in H. inversion H as [| |? ? v' ? rest' Hv Hrest]; subst.
    destruct (IH _ _ Hrest) as (a & b & -> & Ha).
    exists (k :: v' :: a), b. split; [done|]. by constructor.
Qed.

Lemma Preserved_assignScalar v v' value :
  Preserved v v' → assignScalar v' value = assignScalar v value.
Proof. by inversion 1. Qed.

Lemma Preserved_trans_mut :
  (∀ a b, Preserved a b → ∀ c, Preserved b c → Preserved a c) ∧
  (∀ l l', Entries l l' → ∀ l'', Entries l' l'' → Entries l l'') ∧
  (∀ v v', ValueKept v v' → ∀ v'', ValueKept v' v'' → ValueKept v v'').
Proof.
  apply Preserved_mutind.
  - intros n c H. exact H.
  - intros n c' extra Hk HE IHE c Hbc.
    inversion Hbc as [|b cb' eb Hkb HEb]; subst; [by constructor|].
    rewrite Content_setContent in HEb.
    destruct (Entries_app_inv _ _ _ HEb) as (x & y & -> & Hx).
    rewrite setContent_setContent, <- app_assoc.
    apply Preserved_mapping; [done|]. by apply IHE.
  - intros l'' H. inversion H. constructor.
  - intros k l'' H. inversion H. constructor.
  - intros k v v' rest rest' Hv IHv Hr IHr l'' H.
    inversion H; subst. constructor; [by apply IHv|by apply IHr].
  - intros v value v'' H. inversion H as [? value'|? ? Hp]; subst.
    + change (assignScalar (assignScalar v value) value') with (assignScalar v value').
      constructor.
    + inversion Hp; subst; [constructor|done].
  - intros v v' Hp IH v'' H. inversion H as [? value'|? ? Hp']; subst.
    + rewrite (Preserved_assignScalar _ _ _ Hp). constructor.
    + apply ValueKept_patched. by apply IH.
Qed.

Lemma Preserved_trans a b c : Preserved a b → Preserved b c → Preserved a c.
Proof. intros Hab Hbc. by apply (proj1 Preserved_trans_mut a b). Qed.

(** A whole list of keys preserves the tree. *)
Lemma patchKeys_Preserved vaultPath keys :
  ∀ root root', patchKeys root vaultPath keys = Some root' → Preserved root root'.
Proof.
  induction keys as [|key keys IH]; intros root root' H.
  - cbn in H. simplify_eq. constructor.
  - cbn [patchKeys] in H.
    destruct (upsertNestedKey root (strings_Split key dot) (vaultRef vaultPath key))
      as [root1|] eqn:E; cbn [mbind option_bind] in H; [|done].
    apply (Preserved_trans _ root1); [by apply upsert_Preserved in E|by apply IH].
Qed.

(** What [Preserved] says of one level: the key nodes are where they were,
    the level did not shrink, and its keys in order begin with the keys it
    had. *)
Lemma Entries_lookup_key l l' i k :
  Entries l l' → Nat.even i = true → l !! i = Some k → l' !! i = Some k.
Proof.
  intros H. revert i. induction H as [|k0|k0 v v' rest rest' Hv _ IH]; intros i He Hk.
  - done.
  - done.
  - destruct i as [|[|j]]; [done|done|]. cbn in *. by apply IH.
Qed.

Lemma Entries_mapKeys l l' : Entries l l' → mapKeys l' = mapKeys l.
Proof. induction 1; cbn; congruence. Qed.

Lemma mapKeys_app l1 l2 :
  Nat.even (List.length l1) = true → mapKeys (l1 ++ l2) = mapKeys l1 ++ mapKeys l2.
Proof.
  induction l1 as [| k | k v l IH] using list_pair_ind; intros He; [done|done|].
  cbn in *. by rewrite IH.
Qed.

Lemma Preserved_level n n' :
  Preserved n n' →
  Kind n' = Kind n ∧
  (List.length (Content n) ≤ List.length (Content n'))%nat ∧
  (∀ i k, Nat.even i = true → Content n !! i = Some k → Content n' !! i = Some k) ∧
  (Nat.even (List.length (Content n)) = true →
     mapKeys (Content n) `prefix_of` mapKeys (Content n')).
Proof.
  inversion 1 as [|? c' extra Hk HE]; subst.
  - split_and!; [done|done|done|]. by intros _.
  - rewrite Content_setContent. pose proof (Entries_length _ _ HE) as Hlen.
    split_and!.
    + done.
    + rewrite length_app. lia.
    + intros i k He Hi. apply lookup_app_l_Some. by apply (Entries_lookup_key (Content n)).
    + intros He. rewrite mapKeys_app by by rewrite Hlen.
      rewrite (Entries_mapKeys _ _ HE). by apply prefix_app_r.
Qed.

(** ** Well-formed trees never make the patcher panic *)

Lemma wfNode_inv n :
  wfNode n →
  (Kind n = MappingNode → Nat.even (List.length (Content n)) = true) ∧
  Forall wfNode (Content n).
Proof. by inversion 1. Qed.

Lemma wfNode_newScalar v : wfNode (newNode ScalarNode v).
Proof. constructor; [done|constructor]. Qed.

Lemma wfNode_assignScalar n value : wfNode (assignScalar n value).
Proof. constructor; [done|constructor]. Qed.

Lemma wfNode_nestedChain segs value : wfNode (nestedChain segs value).
Proof.
  induction segs as [|s segs IH]; [apply wfNode_newScalar|].
  constructor; [done|]. cbn.
  constructor; [apply wfNode_newScalar|]. constructor; [done|constructor].
Qed.

Lemma wfNode_append n a b :
  wfNode n → wfNode a → wfNode b → wfNode (setContent n (Content n ++ [a; b])).
Proof.
  intros [Hlen Hall]%wfNode_inv Ha Hb. constructor; rewrite Content_setContent.
  - intros Hk. rewrite length_app. cbn [List.length].
    replace (List.length (Content n) + 2) with (S (S (List.length (Content n)))) by lia.
    cbn [Nat.even]. by apply Hlen.
  - apply Forall_app. split; [done|].
    constructor; [done|]. constructor; [done|constructor].
Qed.

Lemma wfNode_insert n j x :
  wfNode n → wfNode x → wfNode (setContent n (<[j := x]> (Content n))).
Proof.
  intros [Hlen Hall]%wfNode_inv Hx. constructor; rewrite Content_setContent.
  - intros Hk. rewrite length_insert. by apply Hlen.
  - by apply Forall_insert.
Qed.

Lemma upsert_total keyPath :
  ∀ node value,
    wfNode node →
    ∃ node', upsertNestedKey node keyPath value = Some node' ∧ wfNode node'.
Proof.
  induction keyPath as [|seg keyPath' IH]; intros node value Hwf.
  - by exists node.
  - destruct (wfNode_inv _ Hwf) as [Hlen Hall].
    cbn [upsertNestedKey]. cbv zeta.
    destruct (Kind_eqb (Kind node) MappingNode) eqn:Hk; cbn [negb];
      [|by exists node].
    apply Kind_eqb_eq in Hk. specialize (Hlen Hk).
    destruct (findKey (Content node) (strings_Join (seg :: keyPath') ".") 0)
      as [i|] eqn:Hflat.
    { apply findKey_Some in Hflat as [Hat _].
      destruct (keyAt_value _ _ _ Hlen Hat) as [old Hold].
      unfold setScalarAt. rewrite Hold. cbn [mbind option_bind].
      eexists. split; [done|]. apply wfNode_insert; [done|apply wfNode_assignScalar]. }
    destruct (findKey (Content node) seg 0) as [i|] eqn:Hseg.
    { apply findKey_Some in Hseg as [Hat _].
      destruct (keyAt_value _ _ _ Hlen Hat) as [child Hc].
      destruct keyPath' as [|s' kp'].
      - unfold setScalarAt. rewrite Hc. cbn [mbind option_bind].
        eexists. split; [done|]. apply wfNode_insert; [done|apply wfNode_assignScalar].
      - rewrite Hc. cbn [mbind option_bind].
        destruct (Kind_eqb (Kind child) MappingNode); [|by exists node].
        assert (wfNode child) as Hwc.
        { eapply Forall_lookup_1; [exact Hall|exact Hc]. }
        destruct (IH child value Hwc) as (child' & -> & Hwc').
        cbn [mbind option_bind]. eexists. split; [done|]. by apply wfNode_insert. }
    destruct (hasFlatKeys node).
    + eexists. split; [done|]. apply wfNode_append; [done|apply wfNode_newScalar..].
    + eexists. split; [done|]. rewrite addNestedKey_chain.
      apply wfNode_append; [done|apply wfNode_newScalar|apply wfNode_nestedChain].
Qed.

Lemma patchKeys_total vaultPath keys :
  ∀ root, wfNode root →
    ∃ root', patchKeys root vaultPath keys = Some root' ∧ wfNode root'.
Proof.
  induction keys as [|key keys IH]; intros root Hwf; [by exists root|].
  destruct (upsert_total (strings_Split key dot) root (vaultRef vaultPath key) Hwf)
    as (root1 & E & Hwf1).
  cbn [patchKeys]. rewrite E. cbn [mbind option_bind]. by apply IH.
Qed.

(** C5 (as amended) — a patch keeps the existing keys and their order.
    On a tree whose mappings pair up keys and values, a patch of any list
    of keys returns a tree in which every mapping that is still there has
    its old key nodes at their old positions, its old values overwritten in
    place or preserved in turn, and new entries only after them
    ([Preserved]); at the root in particular the keys in order begin with
    the old keys.  What is below a value that a key overwrites is not kept:
    the value becomes the reference scalar. *)
Theorem C5_patch_preserves_entries root vaultPath keys :
  wfNode root →
  ∃ root',
    patchKeys root vaultPath keys = Some root' ∧
    wfNode root' ∧
    Preserved root root' ∧
    Kind root' = Kind root ∧
    (∀ i k, Nat.even i = true → Content root !! i = Some k →
            Content root' !! i = Some k) ∧
    (Kind root = MappingNode →
       mapKeys (Content root) `prefix_of` mapKeys (Content root')).
Proof.
  intros Hwf.
  destruct (patchKeys_total vaultPath keys root Hwf) as (root' & E & Hwf').
  pose proof (patchKeys_Preserved _ _ _ _ E) as Hp.
  destruct (Preserved_level _ _ Hp) as (Hk & _ & Hkeys & Hprefix).
  exists root'. split_and!; try done.
  intros Hm. apply Hprefix. by apply (wfNode_inv _ Hwf).
Qed.

Lemma C5_patch_preserves_entries_witness :
  let root :=
    mapping [scalar "password"; scalar "placeholder";
             scalar "admin";
             mapping [scalar "oauth2";
                      mapping [scalar "clientID"; scalar "placeholder"]]] in
  let keys := ["admin.oauth2.clientID"; "new.key"; "password"] in
  ∃ root',
    patchKeys root "secret/myapp" keys = Some root' ∧
    wfNode root' ∧
    Preserved root root' ∧
    Kind root' = Kind root ∧
    (∀ i k, Nat.even i = true → Content root !! i = Some k →
            Content root' !! i = Some k) ∧
    (Kind root = MappingNode →
       mapKeys (Content root) `prefix_of` mapKeys (Content root')).
Proof.
  intros root keys.
  apply (C5_patch_preserves_entries root "secret/myapp" keys).
  unfold root, mapping, scalar. cbn [setContent newNode].
  repeat first
    [ apply List.Forall_nil
    | apply List.Forall_cons
    | apply wfNode_intro; [intros _; reflexivity|] ].
Defined.

(** The claim as the spec words it fails for the entries below a value
    that is overwritten: patching the key "a" of [{a: {b: 1}}] replaces the
    inner mapping by the reference scalar, and its entry [b] is gone. *)
Lemma C5_counterexample_overwritten_mapping :
  let root := mapping [scalar "a"; mapping [scalar "b"; scalar "1"]] in
  let root' := mapping [scalar "a"; scalar "ref+vault://secret/app/a#value"] in
  patchKeys root "secret/app" ["a"] = Some root' ∧
  ("b", 0) ∈ allEntries root ∧
  ("b", 0) ∉ allEntries root'.
Proof.
  intros root root'. split_and!.
  - reflexivity.
  - apply (bool_decide_unpack _). vm_compute. reflexivity.
  - apply (bool_decide_unpack _). vm_compute. reflexivity.
Qed.

(** The tests of [main_test.go] that exercise the patcher. *)
Example TestUpdate_nested_keys :
  patchKeys (mapping [scalar "admin";
                      mapping [scalar "oauth2";
                               mapping [scalar "clientID"; scalar "placeholder"]]])
            "secret/myapp" ["admin.oauth2.clientID"]
  = Some (mapping [scalar "admin";
                   mapping [scalar "oauth2";
                            mapping [scalar "clientID";
                                     scalar "ref+vault://secret/myapp/admin.oauth2.clientID#value"]]]).
Proof. reflexivity. Qed.

Example TestUpdate_creates_nested_structure :
  patchKeys (mapping [scalar "existing"; scalar "value"]) "secret/myapp" ["new.key"]
  = Some (mapping [scalar "existing"; scalar "value";
                   scalar "new";
                   mapping [scalar "key"; scalar "ref+vault://secret/myapp/new.key#value"]]).
Proof. reflexivity. Qed.

Example TestUpdate_adds_flat_key :
  patchKeys (mapping [scalar "existing.key"; scalar "value"]) "secret/myapp" ["new.key"]
  = Some (mapping [scalar "existing.key"; scalar "value";
                   scalar "new.key"; scalar "ref+vault://secret/myapp/new.key#value"]).
Proof. reflexivity. Qed.

Example TestUpdate_deepest_nested_path :
  patchKeys (mapping [scalar "api";
                      mapping [scalar "config";
                               mapping [scalar "db.max_conn"; scalar "1"]]])
            "secret/myapp" ["api.config.db.min_conn"]
  = Some (mapping [scalar "api";
                   mapping [scalar "config";
                            mapping [scalar "db.max_conn"; scalar "1";
                                     scalar "db.min_conn";
                                     scalar "ref+vault://secret/myapp/api.config.db.min_conn#value"]]]).
Proof. reflexivity. Qed.

(** ** Further properties of the patcher *)

(** Overwriting a value does not move any key. *)
Lemma findKey_insert_value content key j x :
  Nat.even j = true →
  findKey (<[j + 1 := x]> content) key 0 = findKey content key 0.
Proof.
  revert j. induction content as [| k | k v l IH] using list_pair_ind; intros j He.
  - done.
  - by destruct j.
  - destruct j as [|[|j]]; [done|done|].
    cbn [insert list_insert Nat.add findKey]. destruct (String.eqb (Value k) key); [done|].
    rewrite (findKey_offset _ _ 2), (findKey_offset l _ 2).
    change (<[j + 1 := x]> l) with (list_insert (j + 1) x l).
    by rewrite <- (IH j He).
Qed.

Lemma strings_Join_longer seg rest :
  rest ≠ [] → strings_Join (seg :: rest) "." ≠ seg.
Proof.
  intros Hne E. destruct rest as [|r rest]; [done|].
  rewrite strings_Join_cons in E. apply (f_equal len) in E.
  rewrite !string_app_length in E. cbn in E. lia.
Qed.

Lemma upsert_Kind keyPath node value node' :
  upsertNestedKey node keyPath value = Some node' → Kind node' = Kind node.
Proof. intros H%upsert_Preserved. by apply Preserved_level in H as [? _]. Qed.

(** Patching a path into the chain that was made for it changes nothing. *)
Lemma upsert_chain_self keyPath value :
  keyPath ≠ [] →
  upsertNestedKey (nestedChain keyPath value) keyPath value
    = Some (nestedChain keyPath value).
Proof.
  induction keyPath as [|r rest IH]; intros Hne; [done|].
  set (node := nestedChain (r :: rest) value).
  assert (Content node = [scalar r; nestedChain rest value]) as Hc by done.
  destruct rest as [|r' rest'].
  - rewrite (upsert_flat_match node [r] value 0 (nestedChain [] value));
      [done|done|done| |by rewrite Hc].
    rewrite Hc. by apply firstKeyAt_head.
  - rewrite (upsert_recurse node r (r' :: rest') value 0 (nestedChain (r' :: rest') value));
      [|done|done| | |by rewrite Hc|done].
    + by rewrite IH.
    + rewrite Hc. intros E%hasKey_single. symmetry in E.
      by apply strings_Join_longer in E.
    + rewrite Hc. by apply firstKeyAt_head.
Qed.

Lemma firstKeyAt_app_new content k v key :
  Nat.even (List.length content) = true →
  ¬ hasKey content key → Value k = key →
  firstKeyAt (content ++ [k; v]) (List.length content) key.
Proof.
  intros Hlen Hno Hv. split.
  - apply keyAt_app_pair; [done|]. by right.
  - intros j Hj [Hj'|[-> _]]%keyAt_app_pair; [|lia|done]. apply Hno. by exists j.
Qed.

Lemma lookup_app_new_value {A} (content : list A) k v :
  (content ++ [k; v]) !! (List.length content + 1) = Some v.
Proof.
  rewrite lookup_app_r by lia.
  by replace (List.length content + 1 - List.length content) with 1 by lia.
Qed.

Lemma upsert_idempotent_aux keyPath :
  ∀ node value node',
    wfNode node →
    upsertNestedKey node keyPath value = Some node' →
    upsertNestedKey node' keyPath value = Some node'.
Proof.
  induction keyPath as [|seg keyPath' IH]; intros node value node' Hwf H.
  - cbn in H. by simplify_eq.
  - destruct (wfNode_inv _ Hwf) as [Hlen Hall].
    pose proof H as Hsame. cbn [upsertNestedKey] in H. cbv zeta in H.
    destruct (Kind_eqb (Kind node) MappingNode) eqn:Hk; cbn [negb] in H;
      [|by simplify_eq].
    apply Kind_eqb_eq in Hk. specialize (Hlen Hk).
    destruct (findKey (Content node) (strings_Join (seg :: keyPath') ".") 0)
      as [i|] eqn:Hflat.
    { (* rule 1 *)
      pose proof (findKey_even _ _ _ Hflat) as He.
      unfold setScalarAt in H. destruct (Content node !! (i + 1)) as [old|] eqn:Hold;
        cbn [mbind option_bind] in H; [|done]. simplify_eq.
      rewrite (upsert_flat_match _ _ value i (assignScalar old value)); [|done|done| |].
      - rewrite Content_setContent, setContent_setContent.
        by rewrite list_insert_insert_eq.
      - apply findKey_Some. rewrite Content_setContent.
        by rewrite findKey_insert_value.
      - rewrite Content_setContent. apply list_lookup_insert_eq.
        by apply lookup_lt_Some in Hold. }
    destruct (findKey (Content node) seg 0) as [i|] eqn:Hseg.
    { (* rule 2 *)
      pose proof (findKey_even _ _ _ Hseg) as He.
      destruct keyPath' as [|s' kp']; [cbn in Hflat; congruence|].
      destruct (Content node !! (i + 1)) as [child|] eqn:Hc;
        cbn [mbind option_bind] in H; [|done].
      destruct (Kind_eqb (Kind child) MappingNode) eqn:Hck; [|by simplify_eq].
      destruct (upsertNestedKey child (s' :: kp') value) as [child'|] eqn:Hch;
        cbn [mbind option_bind] in H; [|done]. simplify_eq.
      assert (wfNode child) as Hwc.
      { eapply Forall_lookup_1; [exact Hall|exact Hc]. }
      rewrite (upsert_recurse _ seg (s' :: kp') value i child'); [|done|done| | | |].
      - rewrite (IH _ _ _ Hwc Hch). cbn [fmap option_fmap option_map].
        rewrite Content_setContent, setContent_setContent.
        by rewrite list_insert_insert_eq.
      - apply findKey_None. rewrite Content_setContent.
        by rewrite findKey_insert_value.
      - apply findKey_Some. rewrite Content_setContent.
        by rewrite findKey_insert_value.
      - rewrite Content_setContent. apply list_lookup_insert_eq.
        by apply lookup_lt_Some in Hc.
      - rewrite (upsert_Kind _ _ _ _ Hch). by apply Kind_eqb_eq. }
    (* rule 3 *)
    apply findKey_None in Hflat, Hseg.
    destruct (hasFlatKeys node) eqn:Hfk; simplify_eq.
    + set (flatKey := strings_Join (seg :: keyPath') ".") in *.
      rewrite (upsert_flat_match _ _ value (List.length (Content node))
                 (newNode ScalarNode value)); [|done|done| |].
      * rewrite Content_setContent, setContent_setContent.
        rewrite list_insert_id; [done|]. apply lookup_app_new_value.
      * rewrite Content_setContent. by apply firstKeyAt_app_new.
      * rewrite Content_setContent. apply lookup_app_new_value.
    + rewrite addNestedKey_chain. destruct keyPath' as [|s' kp'].
      * rewrite (upsert_flat_match _ _ value (List.length (Content node))
                   (nestedChain [] value)); [|done|done| |].
        -- rewrite Content_setContent, setContent_setContent.
           rewrite list_insert_id; [done|]. apply lookup_app_new_value.
        -- rewrite Content_setContent. by apply firstKeyAt_app_new.
        -- rewrite Content_setContent. apply lookup_app_new_value.
      * rewrite (upsert_recurse _ seg (s' :: kp') value (List.length (Content node))
                   (nestedChain (s' :: kp') value)); [|done|done| | | |done].
        -- rewrite upsert_chain_self by done. cbn [fmap option_fmap option_map].
           rewrite Content_setContent, setContent_setContent.
           rewrite list_insert_id; [done|]. apply lookup_app_new_value.
        -- rewrite Content_setContent.
           intros [i Hi]. apply keyAt_app_pair in Hi as [Hi|[-> Hv]]; [| |done].
           ++ apply Hflat. by exists i.
           ++ change (seg = strings_Join (seg :: s' :: kp') ".") in Hv.
              symmetry in Hv. by apply strings_Join_longer in Hv.
        -- rewrite Content_setContent. by apply firstKeyAt_app_new.
        -- rewrite Content_setContent. apply lookup_app_new_value.
Qed.

Lemma upsert_length keyPath node value node' :
  upsertNestedKey node keyPath value = Some node' →
  List.length (Content node') = List.length (Content node) ∨
  List.length (Content node') = List.length (Content node) + 2.
Proof.
  intros H. destruct keyPath as [|seg keyPath']; [cbn in H; simplify_eq; by left|].
  cbn [upsertNestedKey] in H. cbv zeta in H.
  destruct (Kind_eqb (Kind node) MappingNode); cbn [negb] in H;
    [|simplify_eq; by left].
  destruct (findKey (Content node) (strings_Join (seg :: keyPath') ".") 0) as [i|].
  { unfold setScalarAt in H. destruct (Content node !! (i + 1));
      cbn [mbind option_bind] in H; [|done]. simplify_eq. left.
    rewrite Content_setContent. apply length_insert. }
  destruct (findKey (Content node) seg 0) as [i|].
  { destruct keyPath' as [|s' kp'].
    - unfold setScalarAt in H. destruct (Content node !! (i + 1));
        cbn [mbind option_bind] in H; [|done]. simplify_eq. left.
      rewrite Content_setContent. apply length_insert.
    - destruct (Content node !! (i + 1)) as [child|];
        cbn [mbind option_bind] in H; [|done].
      destruct (Kind_eqb (Kind child) MappingNode); [|simplify_eq; by left].
      destruct (upsertNestedKey child (s' :: kp') value);
        cbn [mbind option_bind] in H; [|done]. simplify_eq. left.
      rewrite Content_setContent. apply length_insert. }
  right. destruct (hasFlatKeys node); simplify_eq.
  - rewrite Content_setContent, length_app. done.
  - rewrite addNestedKey_chain, Content_setContent, length_app. done.
Qed.

(** X1 — no index out of range on parsed trees.  On a tree in which every
    mapping pairs up its keys and values, the patch of any list of keys
    returns, and the tree it returns pairs up keys and values again. *)
Theorem X1_patch_returns_on_paired_trees root vaultPath keys :
  wfNode root →
  ∃ root', patchKeys root vaultPath keys = Some root' ∧ wfNode root'.
Proof. apply patchKeys_total. Qed.

Lemma X1_patch_returns_on_paired_trees_witness :
  ∃ root',
    patchKeys (mapping [scalar "db"; mapping [scalar "url"; scalar "x"]])
              "secret/app" ["db.url"; "db.user"; "name"] = Some root' ∧
    wfNode root'.
Proof.
  apply (X1_patch_returns_on_paired_trees
           (mapping [scalar "db"; mapping [scalar "url"; scalar "x"]])
           "secret/app" ["db.url"; "db.user"; "name"]).
  unfold mapping, scalar. cbn [setContent newNode].
  repeat first
    [ apply List.Forall_nil
    | apply List.Forall_cons
    | apply wfNode_intro; [intros _; reflexivity|] ].
Defined.

(** X2 — patching a key is idempotent.  On a tree with paired-up mappings,
    patching the same key a second time, with the same reference, returns
    the tree the first patch returned: a key that was just added is found
    again (flat or nested, as it was added) and not added twice. *)
Theorem X2_patch_key_idempotent root vaultPath key :
  wfNode root →
  ∃ root',
    patchKeys root vaultPath [key] = Some root' ∧
    patchKeys root' vaultPath [key] = Some root' ∧
    patchKeys root vaultPath [key; key] = Some root'.
Proof.
  intros Hwf.
  destruct (upsert_total (strings_Split key dot) root (vaultRef vaultPath key) Hwf)
    as (root' & E & _).
  pose proof (upsert_idempotent_aux _ _ _ _ Hwf E) as E'.
  exists root'. rewrite !patchKeys_one. split_and!; [done|done|].
  cbn [patchKeys]. rewrite E. cbn [mbind option_bind]. rewrite E'. done.
Qed.

Lemma X2_patch_key_idempotent_witness :
  ∃ root',
    patchKeys (mapping [scalar "existing"; scalar "v"]) "secret/app" ["new.key"]
      = Some root' ∧
    patchKeys root' "secret/app" ["new.key"] = Some root' ∧
    patchKeys (mapping [scalar "existing"; scalar "v"]) "secret/app"
              ["new.key"; "new.key"] = Some root'.
Proof.
  apply (X2_patch_key_idempotent (mapping [scalar "existing"; scalar "v"])
           "secret/app" "new.key").
  unfold mapping, scalar. cbn [setContent newNode].
  repeat first
    [ apply List.Forall_nil
    | apply List.Forall_cons
    | apply wfNode_intro; [intros _; reflexivity|] ].
Defined.

(** X3 — a patch grows a mapping by at most one entry per key and never
    shrinks it.  If the patch of [keys] returns [root'], the root has at
    least as many nodes as before and at most two more (a key node and a
    value node) for each key of the list. *)
Theorem X3_patch_growth_bound root vaultPath keys root' :
  patchKeys root vaultPath keys = Some root' →
  (List.length (Content root) ≤ List.length (Content root'))%nat ∧
  (List.length (Content root') ≤ List.length (Content root) + 2 * List.length keys)%nat.
Proof.
  intros H. split.
  - by apply patchKeys_Preserved, Preserved_level in H as (_ & ? & _).
  - revert root H. induction keys as [|key keys IH]; intros root H.
    + cbn in H. simplify_eq. lia.
    + cbn [patchKeys] in H.
      destruct (upsertNestedKey root (strings_Split key dot) (vaultRef vaultPath key))
        as [root1|] eqn:E; cbn [mbind option_bind] in H; [|done].
      apply IH in H. apply upsert_length in E. cbn [List.length]. lia.
Qed.

Lemma X3_patch_growth_bound_witness :
  let root := mapping [scalar "existing"; scalar "v"] in
  let root' :=
    mapping [scalar "existing"; scalar "ref+vault://secret/app/existing#value";
             scalar "new";
             mapping [scalar "a"; scalar "ref+vault://secret/app/new.a#value";
                      scalar "b"; scalar "ref+vault://secret/app/new.b#value"]] in
  (List.length (Content root) ≤ List.length (Content root'))%nat ∧
  (List.length (Content root') ≤ List.length (Content root) + 2 * 3)%nat.
Proof.
  intros root root'.
  apply (X3_patch_growth_bound root "secret/app" ["existing"; "new.a"; "new.b"] root').
  reflexivity.
Defined.

(** ** Further properties of the flattener *)

Lemma leaves_app a b : leaves (a ++ b) = leaves a ++ leaves b.
Proof. unfold leaves. cbn [leavesUnder]. apply flat_map_app. Qed.

Lemma leaves_cons k v rest :
  leaves ((k, v) :: rest) = ((λ pv, (k :: pv.1, pv.2)) <$> leavesUnder v) ++ leaves rest.
Proof. done. Qed.

(** No leaf is a map. *)
Lemma leavesUnder_values v : Forall (λ pv, isMap pv.2 = false) (leavesUnder v).
Proof.
  induction v as [v Hv|entries IH] using GoValue_map_ind.
  - rewrite leavesUnder_not_map by done. by constructor.
  - cbn [leavesUnder]. induction IH as [|[k v] entries Hkv _ IHe]; [constructor|].
    cbn [flat_map]. apply Forall_app. split; [|done].
    apply Forall_fmap. eapply Forall_impl; [exact Hkv|]. by intros [p x].
Qed.

(** What a run of insertions leaves under a key: the value of the last
    leaf with that key, or what was there before. *)
Lemma foldl_insertLeaf_lookup fk L :
  ∀ r k,
    foldl (insertLeaf fk) r L !! k =
      match list_find (λ pv, codeKey fk pv.1 = k) (reverse L) with
      | Some (_, pv) => Some pv.2
      | None => r !! k
      end.
Proof.
  induction L as [|pv L IH] using rev_ind; intros r k; [done|].
  rewrite foldl_app, reverse_app. cbn [foldl reverse rev_append app list_find].
  unfold insertLeaf at 1. destruct (decide (codeKey fk pv.1 = k)) as [->|Hne].
  - by rewrite lookup_insert_eq.
  - rewrite lookup_insert_ne by done. rewrite IH.
    by destruct (list_find _ (reverse L)) as [[? ?]|].
Qed.

Lemma Flatten_lookup data k :
  Flatten data !! k =
    (λ ipv, ipv.2.2) <$> list_find (λ pv, codeKey "" pv.1 = k) (reverse (leaves data)).
Proof.
  rewrite Flatten_leaves, foldl_insertLeaf_lookup.
  by destruct (list_find _ _) as [[? ?]|].
Qed.

Lemma foldl_insertLeaf_other fk L :
  ∀ r k, Forall (λ pv, codeKey fk pv.1 ≠ k) L →
         foldl (insertLeaf fk) r L !! k = r !! k.
Proof.
  induction L as [|pv L IH]; intros r k H; [done|].
  inversion H as [|? ? Hpv HL]; subst. cbn [foldl]. rewrite IH by done.
  unfold insertLeaf. by rewrite lookup_insert_ne.
Qed.

(** X4 — the output holds leaves only.  Every entry of [Flatten data] is a
    leaf of the input, reached through mapping values only and stored under
    the key the loop built along its path; no entry of the output is itself
    a map. *)
Theorem X4_flatten_entries_are_leaves data k v :
  Flatten data !! k = Some v →
  isMap v = false ∧ ∃ path, (path, v) ∈ leaves data ∧ codeKey "" path = k.
Proof.
  rewrite Flatten_lookup. intros H.
  destruct (list_find _ _) as [[i [p x]]|] eqn:E; [|done].
  cbn in H. simplify_eq. apply list_find_Some in E as (Hin%list_elem_of_lookup_2 & Hk & _).
  rewrite elem_of_reverse in Hin. split.
  - pose proof (leavesUnder_values (VMap data)) as Hall.
    rewrite Forall_forall in Hall. exact (Hall (p, v) Hin).
  - by exists p.
Qed.

Lemma X4_flatten_entries_are_leaves_witness :
  isMap (VInt 5432) = false ∧
  ∃ path, (path, VInt 5432) ∈ leaves [("db", VMap [("port", VInt 5432)])] ∧
          codeKey "" path = "db.port".
Proof.
  apply (X4_flatten_entries_are_leaves [("db", VMap [("port", VInt 5432)])]
           "db.port" (VInt 5432)).
  vm_compute. reflexivity.
Defined.

(** X5 — every leaf's key is in the output, and on a collision the leaf
    visited last wins.  The key built for any leaf of the input is a key of
    [Flatten data]; its value is the value of that leaf whenever no leaf
    visited after it has the same key. *)
Theorem X5_flatten_last_leaf_wins data before path v after :
  leaves data = before ++ (path, v) :: after →
  is_Some (Flatten data !! codeKey "" path) ∧
  (Forall (λ pv, codeKey "" pv.1 ≠ codeKey "" path) after →
   Flatten data !! codeKey "" path = Some v).
Proof.
  intros E. split.
  - rewrite Flatten_lookup.
    destruct (list_find (λ pv, codeKey "" pv.1 = codeKey "" path)
                (reverse (leaves data))) as [[i pv]|] eqn:F; [by eexists|].
    exfalso. eapply list_find_None in F.
    rewrite Forall_forall in F. apply (F (path, v)); [|done].
    rewrite elem_of_reverse, E, elem_of_app, elem_of_cons. by right; left.
  - intros Hafter. rewrite Flatten_leaves, E, foldl_app. cbn [foldl].
    rewrite foldl_insertLeaf_other by done.
    unfold insertLeaf at 1. cbn [fst snd]. by rewrite lookup_insert_eq.
Qed.

Lemma X5_flatten_last_leaf_wins_witness :
  is_Some (Flatten [("a", VMap [("b", VInt 1)]); ("a.b", VInt 2)] !! codeKey "" ["a.b"]) ∧
  (Forall (λ pv : list string * GoValue, codeKey "" pv.1 ≠ codeKey "" ["a.b"]) [] →
   Flatten [("a", VMap [("b", VInt 1)]); ("a.b", VInt 2)] !! codeKey "" ["a.b"]
     = Some (VInt 2)).
Proof.
  apply (X5_flatten_last_leaf_wins [("a", VMap [("b", VInt 1)]); ("a.b", VInt 2)]
           [(["a"; "b"], VInt 1)] ["a.b"] (VInt 2) []).
  reflexivity.
Defined.

Lemma leaves_flat data :
  Forall (λ kv, isMap kv.2 = false) data →
  leaves data = (λ kv, ([kv.1], kv.2)) <$> data.
Proof.
  induction 1 as [|[k v] data Hv _ IH]; [done|].
  rewrite leaves_cons, IH. cbn [fst snd] in *. by rewrite leavesUnder_not_map.
Qed.

(** X6 — an input that is already flat is returned as it is.  If no value
    of the input map is itself a map, the output has exactly the entries of
    the input: the same keys with the same values. *)
Theorem X6_flatten_flat_input_unchanged (data : list (string * GoValue)) :
  NoDup data.*1 →
  Forall (λ kv, isMap kv.2 = false) data →
  Flatten data = list_to_map data ∧
  ∀ k v, Flatten data !! k = Some v ↔ (k, v) ∈ data.
Proof.
  intros Hnd Hflat.
  assert (Flatten data = list_to_map data) as E.
  { rewrite Flatten_leaves, leaves_flat by done.
    rewrite foldl_fmap.
    trans (foldl (λ (r : gmap string GoValue) kv, <[kv.1 := kv.2]> r) ∅ data);
      [reflexivity|].
    rewrite foldl_insert_list_to_map, (right_id_L ∅ (∪)).
    apply list_to_map_proper; [|apply reverse_Permutation].
    by rewrite fmap_reverse, reverse_Permutation. }
  split; [done|]. intros k v. rewrite E. symmetry. by apply elem_of_list_to_map.
Qed.

Lemma X6_flatten_flat_input_unchanged_witness :
  let data := [("key1", VString "value1"); ("key2", VString "value2")] in
  Flatten data = list_to_map data ∧
  ∀ k v, Flatten data !! k = Some v ↔ (k, v) ∈ data.
Proof.
  intros data. apply (X6_flatten_flat_input_unchanged data).
  - apply (bool_decide_unpack _). vm_compute. reflexivity.
  - repeat constructor.
Defined.

(** X7 — a mapping under the empty key is flattened into the top level.
    Because the loop takes an empty prefix for "no prefix", an entry
    [("", VMap m)] of the top-level map contributes the entries of [m] under
    their own keys, with no leading dot: the output is that of the input
    with the entry replaced by its children. *)
Theorem X7_flatten_empty_key_is_transparent pre m post :
  Flatten (pre ++ ("", VMap m) :: post) = Flatten (pre ++ m ++ post).
Proof.
  rewrite !Flatten_leaves, !leaves_app, leaves_cons, !foldl_app. f_equal.
  rewrite foldl_fmap. done.
Qed.

Lemma sameMap_leaves : ∀ v v', sameMap v v' → leavesUnder v ≡ₚ leavesUnder v'.
Proof.
  fix IH 3. intros v v' H. destruct H as [v Hv|es es' es'' HF Hp]; [done|].
  cbn [leavesUnder].
  trans (flat_map (λ kv, (λ pv, (kv.1 :: pv.1, pv.2)) <$> leavesUnder kv.2) es'').
  - clear Hp. induction HF as [|[k x] [k' x'] es es'' [Hk Hx] HF IHF]; [done|].
    cbn [flat_map fst snd] in *. subst k'. apply Permutation_app; [|apply IHF].
    apply fmap_Permutation. apply IH, Hx.
  - by apply Permutation_flat_map.
Qed.

Lemma Flatten_list_to_map data :
  Flatten data = list_to_map (reverse (coded <$> leaves data)).
Proof.
  rewrite Flatten_leaves.
  trans (foldl (λ (r : gmap string GoValue) kv, <[kv.1 := kv.2]> r) ∅
               (coded <$> leaves data)).
  - by rewrite foldl_fmap.
  - by rewrite foldl_insert_list_to_map, (right_id_L ∅ (∪)).
Qed.

(** X8 — without colliding keys the output does not depend on the order in
    which the maps are walked.  If two inputs are the same map, entry for
    entry at every level, visited in different orders, and no two leaves
    get the same key, [Flatten] returns the same output for both. *)
Theorem X8_flatten_order_independent data data' :
  sameMap (VMap data) (VMap data') →
  NoDup (coded <$> leaves data).*1 →
  Flatten data = Flatten data'.
Proof.
  intros Hsame Hnd. rewrite !Flatten_list_to_map.
  apply sameMap_leaves in Hsame. fold (leaves data) (leaves data') in Hsame.
  apply list_to_map_proper.
  - by rewrite fmap_reverse, reverse_Permutation.
  - by rewrite !reverse_Permutation, Hsame.
Qed.

Lemma X8_flatten_order_independent_witness :
  Flatten [("admin", VMap [("user", VString "u"); ("pass", VString "p")]);
           ("port", VInt 1)]
  = Flatten [("port", VInt 1);
             ("admin", VMap [("pass", VString "p"); ("user", VString "u")])].
Proof.
  apply X8_flatten_order_independent.
  - apply (sameMap_map _ _
             [("admin", VMap [("pass", VString "p"); ("user", VString "u")]);
              ("port", VInt 1)]).
    + constructor.
      * split; [reflexivity|].
        apply (sameMap_map _ _ [("user", VString "u"); ("pass", VString "p")]).
        -- repeat (constructor; [split; [reflexivity|by apply sameMap_leaf]|]).
           constructor.
        -- apply perm_swap.
      * constructor; [|constructor]. split; [reflexivity|by apply sameMap_leaf].
    + apply perm_swap.
  - apply (bool_decide_unpack _). vm_compute. reflexivity.
Defined.

(** ** Further properties of the companion-file update *)

Section UpdateCounterpartFacts.
Variable yaml_Unmarshal : string → Node + string.
Variable yaml_Encode : Z → Node → string + string.

(** The shape of every successful return. *)
Lemma updateCounterpartFile_updated fs path vaultPath keys fs' err :
  updateCounterpartFile yaml_Unmarshal yaml_Encode fs path vaultPath keys
    = Some (fs', true, err) →
  err = None ∧
  ∃ content doc doc' buf,
    fs !! path = Some (RegularFile content) ∧
    yaml_Unmarshal content = inl doc ∧
    yaml_Encode (detectIndent content) doc' = inl buf ∧
    fs' = <[path := RegularFile buf]> fs.
Proof.
  unfold updateCounterpartFile, os_Stat_IsNotExist, os_ReadFile, os_WriteFile.
  destruct (fs !! path) as [[content|]|] eqn:Hp; [|done..].
  destruct (yaml_Unmarshal content) as [doc|e] eqn:Hu; [|done].
  destruct (Kind doc) eqn:Hk; try done.
  - destruct (Content doc) as [|first others]; [done|].
    destruct (Kind_eqb (Kind first) MappingNode); [|done].
    destruct (patchKeys first vaultPath keys) as [root'|]; [|done].
    cbn [mbind option_bind].
    destruct (yaml_Encode _ _) as [buf|e] eqn:He; [|done].
    intros [= <- <-]. split; [done|]. by eexists content, doc, _, buf.
  - destruct (Kind_eqb (Kind doc) MappingNode); [|done].
    destruct (patchKeys doc vaultPath keys) as [root'|]; [|done].
    cbn [mbind option_bind].
    destruct (yaml_Encode _ _) as [buf|e] eqn:He; [|done].
    intros [= <- <-]. split; [done|]. by eexists content, doc, _, buf.
Qed.



(** X10 — what a successful update writes.  When [updated] is true, the
    path named a regular file that parsed; the bytes now at the path are the
    encoder's output for the indent width detected in the old bytes; and no
    other path of the file system changed. *)
Theorem X10_update_success_frame fs path vaultPath keys fs' err :
  updateCounterpartFile yaml_Unmarshal yaml_Encode fs path vaultPath keys
    = Some (fs', true, err) →
  ∃ content doc doc' buf,
    fs !! path = Some (RegularFile content) ∧
    yaml_Unmarshal content = inl doc ∧
    yaml_Encode (detectIndent content) doc' = inl buf ∧
    fs' !! path = Some (RegularFile buf) ∧
    ∀ other, other ≠ path → fs' !! other = fs !! other.
Proof.
  intros (_ & content & doc & doc' & buf & Hp & Hu & He & ->)%updateCounterpartFile_updated.
  exists content, doc, doc', buf. split_and!; [done|done|done| |].
  - apply lookup_insert_eq.
  - intros other Hne. by apply lookup_insert_ne.
Qed.

(** X11 — a root that is not a mapping is an error, not a patch.  If the
    file parses to a document whose first child is not a mapping, to a
    document without children, or to a node that is neither a document nor a
    mapping, the update returns the error "expected YAML mapping at root"
    with the kind of the parsed node (not of its root child), and the file
    system is as it was. *)
Theorem X11_update_rejects_non_mapping_root fs path vaultPath keys content doc :
  fs !! path = Some (RegularFile content) →
  yaml_Unmarshal content = inl doc →
  (Kind doc = DocumentNode ∧
     ∀ first others, Content doc = first :: others → Kind first ≠ MappingNode) ∨
  (Kind doc ≠ DocumentNode ∧ Kind doc ≠ MappingNode) →
  updateCounterpartFile yaml_Unmarshal yaml_Encode fs path vaultPath keys
    = Some (fs, false,
            Some ("expected YAML mapping at root, got kind "
                  +:+ pretty (Kind_code (Kind doc)))).
Proof.
  intros Hp Hu Hshape.
  unfold updateCounterpartFile, os_Stat_IsNotExist, os_ReadFile.
  rewrite Hp, Hu. destruct Hshape as [[Hk Hfirst]|[Hk1 Hk2]].
  - rewrite Hk. destruct (Content doc) as [|first others] eqn:Hc; [done|].
    specialize (Hfirst first others eq_refl). apply Kind_eqb_neq in Hfirst.
    by rewrite Hfirst.
  - destruct (Kind doc); done.
Qed.

(** X12 — with a parser that returns paired-up trees, the update never
    panics: it always returns a result. *)
Theorem X12_update_returns fs path vaultPath keys :
  (∀ content doc, yaml_Unmarshal content = inl doc → wfNode doc) →
  is_Some (updateCounterpartFile yaml_Unmarshal yaml_Encode fs path vaultPath keys).
Proof.
  intros Hparser.
  unfold updateCounterpartFile, os_Stat_IsNotExist, os_ReadFile, os_WriteFile.
  destruct (fs !! path) as [[content|]|] eqn:Hp; [|done..].
  destruct (yaml_Unmarshal content) as [doc|e] eqn:Hu; [|done].
  specialize (Hparser _ _ Hu). destruct (wfNode_inv _ Hparser) as [_ Hall].
  destruct (Kind doc) eqn:Hk; try done.
  - destruct (Content doc) as [|first others]; [done|].
    destruct (Kind_eqb (Kind first) MappingNode); [|done].
    inversion Hall as [|? ? Hfirst _]; subst.
    destruct (patchKeys_total vaultPath keys first Hfirst) as (root' & -> & _).
    cbn [mbind option_bind]. by destruct (yaml_Encode _ _).
  - destruct (Kind_eqb (Kind doc) MappingNode); [|done].
    destruct (patchKeys_total vaultPath keys doc Hparser) as (root' & -> & _).
    cbn [mbind option_bind]. by destruct (yaml_Encode _ _).
Qed.

End UpdateCounterpartFacts.


Lemma X10_update_success_frame_witness :
  let fs : gmap string File := {[ "app.yaml" := RegularFile "password: placeholder" ]} in
  let fs' : gmap string File :=
    {[ "app.yaml" := RegularFile "encoded with indent 2" ]} in
  ∃ content doc doc' buf,
    fs !! "app.yaml" = Some (RegularFile content) ∧
    sampleUnmarshal content = inl doc ∧
    sampleEncode (detectIndent content) doc' = inl buf ∧
    fs' !! "app.yaml" = Some (RegularFile buf) ∧
    ∀ other, other ≠ "app.yaml" → fs' !! other = fs !! other.
Proof.
  intros fs fs'.
  apply (X10_update_success_frame sampleUnmarshal sampleEncode
           fs "app.yaml" "secret/app" ["password"] fs' None).
  unfold fs, fs'. unfold updateCounterpartFile, os_Stat_IsNotExist, os_ReadFile.
  rewrite lookup_singleton_eq. cbn. unfold os_WriteFile.
  rewrite lookup_singleton_eq. by rewrite insert_singleton_eq.
Defined.

Lemma X11_update_rejects_non_mapping_root_witness :
  let fs : gmap string File := {[ "app.yaml" := RegularFile "- item" ]} in
  updateCounterpartFile sampleUnmarshal sampleEncode fs "app.yaml" "secret/app" ["k"]
    = Some (fs, false,
            Some ("expected YAML mapping at root, got kind "
                  +:+ pretty (Kind_code (Kind (document [sequence [scalar "item"]]))))).
Proof.
  intros fs.
  apply (X11_update_rejects_non_mapping_root sampleUnmarshal sampleEncode
           fs "app.yaml" "secret/app" ["k"] "- item"
           (document [sequence [scalar "item"]])).
  - apply lookup_singleton_eq.
  - reflexivity.
  - left. split; [reflexivity|]. intros first others [= <- <-]. discriminate.
Defined.

Lemma X12_update_returns_witness :
  is_Some (updateCounterpartFile sampleUnmarshal sampleEncode
             {[ "app.yaml" := RegularFile "password: placeholder" ]}
             "app.yaml" "secret/app" ["password"; "db.url"]).
Proof.
  apply (X12_update_returns sampleUnmarshal sampleEncode).
  intros content doc. unfold sampleUnmarshal.
  destruct (String.eqb content "password: placeholder").
  - intros [= <-]. unfold document, mapping, scalar. cbn [setContent newNode].
    repeat first
      [ apply List.Forall_nil
      | apply List.Forall_cons
      | apply wfNode_intro; [intros Hk; first [reflexivity|discriminate Hk]|] ].
  - destruct (String.eqb content "- item"); [|discriminate].
    intros [= <-]. unfold document, sequence, scalar. cbn [setContent newNode].
    repeat first
      [ apply List.Forall_nil
      | apply List.Forall_cons
      | apply wfNode_intro; [intros Hk; first [reflexivity|discriminate Hk]|] ].
Defined.

(** ** File names *)

(** The tests of [TestCleanFilename]. *)
Example TestCleanFilename :
  cleanFilename unixBase <$>
    ["app-secrets.enc.yaml"; "myapp.sops.yaml"; "config-secrets.yaml";
     "/path/to/app-secrets.enc.yaml"; "service.yaml"; "plainfile";
     "multi-part-name-secrets.yaml"; "app.prod.sops.yaml"]
  = ["app"; "myapp"; "config"; "app"; "service"; "plainfile"; "multi-part-name"; "app"].
Proof. reflexivity. Qed.

Lemma prefix_split sub s :
  String.prefix sub s = true → ∃ post, s = sub +:+ post.
Proof.
  revert s. induction sub as [|a sub IH]; intros s H; [by exists s|].
  destruct s as [|b s]; [done|]. cbn in H.
  destruct (ascii_dec a b) as [->|]; [|done].
  destruct (IH _ H) as [post ->]. by exists post.
Qed.

Lemma prefix_nil_l s : String.prefix "" s = true.
Proof. by destruct s. Qed.

Lemma prefix_app_r sub s t :
  String.prefix sub s = true → String.prefix sub (s +:+ t) = true.
Proof.
  revert s. induction sub as [|a sub IH]; intros s H; [apply prefix_nil_l|].
  destruct s as [|b s]; [done|]. rewrite string_app_cons. cbn in *.
  destruct (ascii_dec a b); [by apply IH|done].
Qed.

Lemma prefix_nil_r sub : sub ≠ "" → String.prefix sub "" = false.
Proof. by destruct sub. Qed.

Lemma strings_Index_range s sub :
  strings_Index s sub = (-1)%Z ∨
  (0 ≤ strings_Index s sub ≤ Z.of_nat (len s))%Z.
Proof.
  induction s as [|c s IH]; cbn [strings_Index].
  - destruct (String.prefix sub ""); [right|left]; cbn; lia.
  - destruct (String.prefix sub (String c s)); [right; cbn; lia|].
    cbv zeta. destruct (Z.eqb_spec (strings_Index s sub) (-1)); [by left|].
    right. destruct IH as [|IH]; [done|]. unfold len in *. cbn [String.length]. lia.
Qed.

(** Index 0 is a prefix match. *)
Lemma strings_Index_zero s sub :
  strings_Index s sub = 0%Z ↔ String.prefix sub s = true.
Proof.
  destruct s as [|c s]; cbn [strings_Index].
  - by destruct (String.prefix sub "").
  - destruct (String.prefix sub (String c s)); [done|]. cbv zeta.
    destruct (Z.eqb_spec (strings_Index s sub) (-1)); [done|].
    destruct (strings_Index_range s sub) as [|?]; [done|]. split; [lia|done].
Qed.

(** A found index splits the string at the first instance. *)
Lemma strings_Index_found s sub :
  sub ≠ "" → strings_Index s sub ≠ (-1)%Z →
  ∃ pre post,
    s = pre +:+ sub +:+ post ∧
    Z.of_nat (len pre) = strings_Index s sub ∧
    strings_Index pre sub = (-1)%Z.
Proof.
  intros Hsub. induction s as [|c s IH]; cbn [strings_Index].
  - destruct (String.prefix sub "") eqn:E; [|done].
    by rewrite prefix_nil_r in E.
  - destruct (String.prefix sub (String c s)) eqn:E.
    + intros _. destruct (prefix_split _ _ E) as [post ->].
      exists "", post. split_and!; [done|done|].
      cbn [strings_Index]. by rewrite prefix_nil_r.
    + cbv zeta. destruct (Z.eqb_spec (strings_Index s sub) (-1)) as [|Hne]; [done|].
      intros _. destruct (IH Hne) as (pre & post & -> & Hlen & Hpre).
      exists (String c pre), post. split_and!.
      * done.
      * unfold len in *. cbn [String.length]. lia.
      * cbn [strings_Index]. rewrite Hpre. cbv zeta.
        destruct (String.prefix sub (String c pre)) eqn:E'; [|done].
        apply (prefix_app_r _ _ (sub +:+ post)) in E'.
        rewrite string_app_cons in E'. congruence.
Qed.

(** A string without an instance has no instance in its prefixes. *)
Lemma strings_Index_prefix_none pre post sub :
  strings_Index (pre +:+ post) sub = (-1)%Z → strings_Index pre sub = (-1)%Z.
Proof.
  induction pre as [|c pre IH]; cbn [strings_Index].
  - change ("" +:+ post) with post. intros H.
    destruct (String.prefix sub "") eqn:E; [|done].
    destruct sub; [|done]. by destruct post.
  - rewrite string_app_cons. cbn [strings_Index].
    destruct (String.prefix sub (String c pre)) eqn:E.
    + rewrite <- string_app_cons, (prefix_app_r _ _ post E). done.
    + destruct (String.prefix sub (String c (pre +:+ post))); [done|]. cbv zeta.
      destruct (Z.eqb_spec (strings_Index (pre +:+ post) sub) (-1)) as [Hn|Hn].
      * intros _. by rewrite (IH Hn).
      * destruct (strings_Index_range (pre +:+ post) sub); [done|lia].
Qed.

Lemma sliceTo_app pre rest : sliceTo (pre +:+ rest) (Z.of_nat (len pre)) = pre.
Proof.
  unfold sliceTo, len. rewrite Nat2Z.id.
  induction pre as [|c pre IH]; [by destruct rest|].
  rewrite string_app_cons. cbn. by rewrite IH.
Qed.

Section FilenameFacts.
Variable filepath_Base : string → string.
Variable filepath_Dir : string → string.
Variable filepath_Join : string → string → string.

(** The result of [cleanFilename] in each of its three cases. *)
Lemma cleanFilename_cases path :
  (strings_Index (filepath_Base path) "-secrets" ≠ (-1)%Z ∧
     ∃ post, filepath_Base path = cleanFilename filepath_Base path +:+ "-secrets" +:+ post ∧
             strings_Index (cleanFilename filepath_Base path) "-secrets" = (-1)%Z) ∨
  (strings_Index (filepath_Base path) "-secrets" = (-1)%Z ∧
   strings_Index (filepath_Base path) "." ≠ (-1)%Z ∧
     ∃ post, filepath_Base path = cleanFilename filepath_Base path +:+ "." +:+ post ∧
             strings_Index (cleanFilename filepath_Base path) "." = (-1)%Z) ∨
  (strings_Index (filepath_Base path) "-secrets" = (-1)%Z ∧
   strings_Index (filepath_Base path) "." = (-1)%Z ∧
   cleanFilename filepath_Base path = filepath_Base path).
Proof.
  unfold cleanFilename. cbv zeta. generalize (filepath_Base path) as name. intros name.
  destruct (Z.eqb_spec (strings_Index name "-secrets") (-1)) as [H1|H1]; cbn [negb].
  - destruct (Z.eqb_spec (strings_Index name ".") (-1)) as [H2|H2]; cbn [negb].
    + by right; right.
    + right; left. split_and!; [done|done|].
      destruct (strings_Index_found name "." ltac:(done) H2)
        as (pre & post & E & Hlen & Hpre).
      exists post. rewrite <- Hlen. subst name. by rewrite sliceTo_app.
  - left. split; [done|].
    destruct (strings_Index_found name "-secrets" ltac:(done) H1)
      as (pre & post & E & Hlen & Hpre).
    exists post. rewrite <- Hlen. subst name. by rewrite sliceTo_app.
Qed.

(** X13 — the cleaned name is a prefix of the base name, free of the
    marker.  For every path, [cleanFilename] returns a prefix of the path's
    base name in which "-secrets" does not occur; and when the base name has
    no "-secrets" at all, the result has no "." either. *)
Theorem X13_cleanFilename_prefix path :
  (∃ rest, filepath_Base path = cleanFilename filepath_Base path +:+ rest) ∧
  strings_Index (cleanFilename filepath_Base path) "-secrets" = (-1)%Z ∧
  (strings_Index (filepath_Base path) "-secrets" = (-1)%Z →
   strings_Index (cleanFilename filepath_Base path) "." = (-1)%Z).
Proof.
  destruct (cleanFilename_cases path)
    as [(H1 & post & E & Hr)|[(H1 & H2 & post & E & Hr)|(H1 & H2 & E)]].
  - split_and!; [by eexists|done|done].
  - split_and!; [by eexists|..].
    + rewrite E in H1. by apply strings_Index_prefix_none in H1.
    + done.
  - rewrite E. split_and!; [|done|done]. exists "". by rewrite string_app_nil_r.
Qed.

Lemma string_app_empty s t : s +:+ t = "" → s = "".
Proof. by destruct s. Qed.

(** X14 — when the cleaned name is empty.  [cleanFilename] returns the
    empty string exactly when the base name begins with "-secrets", or has
    no "-secrets" and is empty or begins with a dot (a hidden file such as
    [.env.enc.yaml]). *)
Theorem X14_cleanFilename_empty path :
  cleanFilename filepath_Base path = "" ↔
  String.prefix "-secrets" (filepath_Base path) = true ∨
  (strings_Index (filepath_Base path) "-secrets" = (-1)%Z ∧
   (filepath_Base path = "" ∨ String.prefix "." (filepath_Base path) = true)).
Proof.
  destruct (cleanFilename_cases path)
    as [(H1 & post & E & Hr)|[(H1 & H2 & post & E & Hr)|(H1 & H2 & E)]].
  - split.
    + intros Hempty. left. rewrite E, Hempty.
      exact (prefix_app_r "-secrets" "-secrets" post eq_refl).
    + intros [Hp|[? _]]; [|done]. apply strings_Index_zero in Hp.
      destruct (strings_Index_found (filepath_Base path) "-secrets" ltac:(done) H1)
        as (pre & post' & E' & Hlen & _).
      rewrite Hp in Hlen. destruct pre; [|done].
      unfold cleanFilename. cbv zeta. rewrite Hp. cbn [Z.eqb negb]. by destruct (filepath_Base path).
  - split.
    + intros Hempty. right. split; [done|]. right. rewrite E, Hempty.
      exact (prefix_app_r "." "." post eq_refl).
    + intros [Hp|[_ [Hn|Hp]]].
      * apply strings_Index_zero in Hp. congruence.
      * rewrite Hn in H2. done.
      * apply strings_Index_zero in Hp.
        unfold cleanFilename. cbv zeta. rewrite H1, Hp. cbn [Z.eqb negb].
        by destruct (filepath_Base path).
  - rewrite E. split.
    + intros Hn. right. split; [done|]. by left.
    + intros [Hp|[_ [Hn|Hp]]]; [| done |].
      * apply strings_Index_zero in Hp. congruence.
      * apply strings_Index_zero in Hp. congruence.
Qed.

(** X15 — a plain [name.yaml] is its own counterpart.  If the base name
    of the SOPS file is [stem.yaml] with neither "-secrets" nor a dot in
    [stem], the counterpart is the file in the same directory with the same
    base name: where joining a path's directory and base name gives the
    path back, the file [--update-counterpart] rewrites is the SOPS file
    itself. *)
Theorem X15_counterpart_of_plain_yaml_is_itself path stem :
  filepath_Base path = stem +:+ ".yaml" →
  strings_Index (stem +:+ ".yaml") "-secrets" = (-1)%Z →
  strings_Index stem "." = (-1)%Z →
  filepath_Join (filepath_Dir path) (filepath_Base path) = path →
  cleanFilename filepath_Base path = stem ∧
  counterpartFilename filepath_Base filepath_Dir filepath_Join path = path.
Proof.
  intros Hbase Hsec Hdot Hjoin.
  assert (cleanFilename filepath_Base path = stem) as Hclean.
  { destruct (cleanFilename_cases path)
      as [(H1 & _)|[(H1 & H2 & post & E & Hr)|(H1 & H2 & E)]].
    - by rewrite Hbase in H1.
    - (* the first dot of the base name is the one before "yaml" *)
      rewrite Hbase in E.
      assert (∀ a b p q, strings_Index a "." = (-1)%Z → strings_Index b "." = (-1)%Z →
                a +:+ "." +:+ p = b +:+ "." +:+ q → a = b) as Huniq.
      { clear. induction a as [|c a IH]; intros [|d b] p q Ha Hb Heq.
        - done.
        - rewrite !string_app_cons in Heq. injection Heq as <- _.
          cbn [strings_Index] in Hb. by destruct b.
        - rewrite !string_app_cons in Heq. injection Heq as -> _.
          cbn [strings_Index] in Ha. by destruct a.
        - rewrite !string_app_cons in Heq. injection Heq as -> Heq.
          f_equal. apply (IH b p q); [| |done].
          + apply (strings_Index_prefix_none a "" "."). rewrite string_app_nil_r.
            destruct (strings_Index_range a ".") as [|Hr]; [done|].
            exfalso. cbn [strings_Index] in Ha.
            destruct (String.prefix "." (String d a)); [done|]. cbv zeta in Ha.
            destruct (Z.eqb_spec (strings_Index a ".") (-1)); [lia|lia].
          + apply (strings_Index_prefix_none b "" "."). rewrite string_app_nil_r.
            destruct (strings_Index_range b ".") as [|Hr]; [done|].
            exfalso. cbn [strings_Index] in Hb.
            destruct (String.prefix "." (String d b)); [done|]. cbv zeta in Hb.
            destruct (Z.eqb_spec (strings_Index b ".") (-1)); [lia|lia]. }
      symmetry. by apply (Huniq _ _ "yaml" post).
    - rewrite Hbase in H2. exfalso.
      assert (strings_Index (stem +:+ ".yaml") "." ≠ (-1)%Z) as Hne; [|done].
      clear. induction stem as [|c stem IH]; [done|].
      rewrite string_app_cons. cbn [strings_Index].
      destruct (String.prefix "." (String c (stem +:+ ".yaml"))); [done|]. cbv zeta.
      destruct (Z.eqb_spec (strings_Index (stem +:+ ".yaml") ".") (-1)); [done|].
      destruct (strings_Index_range (stem +:+ ".yaml") "."); [done|lia]. }
  split; [done|]. unfold counterpartFilename. cbv zeta.
  by rewrite Hclean, <- Hbase.
Qed.

End FilenameFacts.

Lemma X15_counterpart_of_plain_yaml_is_itself_witness :
  let dir := λ _ : string, "." in
  let join := λ d n : string, if String.eqb d "." then n else d +:+ "/" +:+ n in
  cleanFilename unixBase "service.yaml" = "service" ∧
  counterpartFilename unixBase dir join "service.yaml" = "service.yaml".
Proof.
  intros dir join.
  apply (X15_counterpart_of_plain_yaml_is_itself unixBase dir join "service.yaml" "service");
    reflexivity.
Defined.

(** The tests of [TestCounterpartFilename] whose paths have no directory. *)
Example TestCounterpartFilename :
  counterpartFilename unixBase (λ _, ".")
                      (λ d n, if String.eqb d "." then n else d +:+ "/" +:+ n) <$>
    ["app-secrets.enc.yaml"; "myapp.sops.yaml"; "service.yaml"]
  = ["app.yaml"; "myapp.yaml"; "service.yaml"].
Proof. reflexivity. Qed.

(** X16 — the preview lists every key once, in ascending order.  After its
    two header lines, of which the second gives the number of entries, the
    output of [printDryRun] is one line per key of the map, the keys in
    ascending byte order and without repetition, whatever order the map
    yields them in. *)
Theorem X16_dry_run_lines_sorted path mount (data : gmap string GoValue) :
  ∃ keys,
    Sorted String.le keys ∧ NoDup keys ∧
    (∀ k, k ∈ keys ↔ is_Some (data !! k)) ∧
    List.length keys = size data ∧
    printDryRun path mount data =
      "[dry-run] Would write to Vault path: " +:+ mount +:+ "/" +:+ path +:+ nl +:+
      "[dry-run] " +:+ pretty (List.length keys) +:+ " secrets:" +:+ nl +:+
      foldr String.append "" ((λ k, dryRunLine k (default VNil (data !! k))) <$> keys).
Proof.
  exists (sort_Strings (map_to_list data).*1).
  assert (sort_Strings (map_to_list data).*1 ≡ₚ (map_to_list data).*1) as Hp
    by apply merge_sort_Permutation.
  assert (List.length (sort_Strings (map_to_list data).*1) = size data) as Hlen.
  { by rewrite Hp, length_fmap, length_map_to_list. }
  split_and!.
  - apply Sorted_merge_sort; apply _.
  - rewrite Hp. apply NoDup_fst_map_to_list.
  - intros k. rewrite Hp, list_elem_of_fmap. split.
    + intros ([k' v] & -> & Hin%elem_of_map_to_list). by exists v.
    + intros [v Hv]. exists (k, v). split; [done|]. by apply elem_of_map_to_list.
  - done.
  - unfold printDryRun. cbv zeta. by rewrite Hlen.
Qed.

(** ** The run of [main] *)

Section MainFacts.
Variable V : Type.
Variable api_NewClient : string → option string.
Variable Logical_Write : V → api_Client → string → GoValue → V * option string.
Variable fmt_v : GoValue → string.
Variable decrypt_File : gmap string File → string → string + string.
Variable yaml_Unmarshal_map : string → list (string * GoValue) + string.
Variable yaml_Unmarshal : string → Node + string.
Variable yaml_Encode : Z → Node → string + string.
Variable filepath_Base : string → string.
Variable filepath_Dir : string → string.
Variable filepath_Join : string → string → string.
Variable filepath_Abs : string → string.
Variable usage : string.

Abbreviation run := (main V api_NewClient Logical_Write fmt_v decrypt_File
                      yaml_Unmarshal_map yaml_Unmarshal yaml_Encode
                      filepath_Base filepath_Dir filepath_Join filepath_Abs usage).

Lemma mainUpdateCounterpart_exit fs counterpart absCounterpart fullVaultPath keys o :
  mainUpdateCounterpart yaml_Unmarshal yaml_Encode fs counterpart absCounterpart
                        fullVaultPath keys = Some o →
  exitStatus o = 0%Z.
Proof.
  unfold mainUpdateCounterpart.
  destruct (updateCounterpartFile _ _ _ _ _ _) as [[[fs' updated] err]|]; [|done].
  cbn [mbind option_bind]. destruct err, updated; by intros [= <-].
Qed.

(** X17 — the configuration is checked before anything is done.  In a run
    that is not a dry run, with two positional arguments, a Vault address
    or token that is empty after flag and environment are consulted ends
    the process with status 1 and a message on standard error: the Vault
    state and the file system are as they were, nothing is on standard
    output, and neither decryption nor Vault is involved. *)
Theorem X17_missing_config_exits_first flags sopsFile vaultPath env fs store :
  dryRun flags = false →
  resolveConfig env (vaultAddr flags) "VAULT_ADDR" = "" ∨
  resolveConfig env (vaultToken flags) "VAULT_TOKEN" = "" →
  ∃ msg,
    run flags [sopsFile; vaultPath] env fs store
      = Some (store, mkOutcome fs "" msg 1) ∧
    (msg = "Error: Vault address required (--vault-addr or VAULT_ADDR)" +:+ nl ∨
     msg = "Error: Vault token required (--vault-token or VAULT_TOKEN)" +:+ nl).
Proof.
  intros Hdry Hmissing. unfold main. cbv zeta. rewrite Hdry. cbn [negb andb].
  destruct (String.eqb_spec (resolveConfig env (vaultAddr flags) "VAULT_ADDR") "")
    as [Ha|Ha].
  - eexists. split; [done|]. by left.
  - destruct Hmissing as [|Ht]; [done|]. rewrite Ht. cbn [String.eqb].
    eexists. split; [done|]. by right.
Qed.

(** X18 — a dry run changes nothing and does not talk to Vault.  With the
    dry-run flag the process returns the Vault state and the file system it
    was given, whatever the arguments; and its whole outcome is the same
    for any two Vault servers. *)
Theorem X18_dry_run_has_no_effect flags args env fs store
    (api_NewClient' : string → option string)
    (Logical_Write' : V → api_Client → string → GoValue → V * option string) :
  dryRun flags = true →
  (∃ o, run flags args env fs store = Some (store, o) ∧ files o = fs) ∧
  run flags args env fs store =
    main V api_NewClient' Logical_Write' fmt_v decrypt_File
         yaml_Unmarshal_map yaml_Unmarshal yaml_Encode
         filepath_Base filepath_Dir filepath_Join filepath_Abs usage
         flags args env fs store.
Proof.
  intros Hdry. unfold main. cbv zeta. rewrite Hdry. cbn [negb andb].
  destruct args as [|sopsFile [|vaultPath [|? ?]]]; try (split; [by eexists|done]).
  destruct (decrypt_File fs sopsFile) as [decrypted|e]; [|split; [by eexists|done]].
  destruct (yaml_Unmarshal_map decrypted) as [data|e]; split; try done; by eexists.
Qed.

(** X19 — a run that fails writes no file.  Whenever the process ends with
    a status other than 0, the file system is the one it started with and
    nothing was printed on standard output: the companion file is only
    touched after every secret has been written. *)
Theorem X19_failed_run_writes_no_file flags args env fs store store' o :
  main V api_NewClient Logical_Write fmt_v decrypt_File
       yaml_Unmarshal_map yaml_Unmarshal yaml_Encode
       filepath_Base filepath_Dir filepath_Join filepath_Abs usage
       flags args env fs store = Some (store', o) →
  exitStatus o ≠ 0%Z →
  files o = fs ∧ stdout o = "".
Proof.
  unfold main. cbv zeta.
  destruct args as [|sopsFile [|vaultPath [|? ?]]]; try by intros [= <- <-].
  destruct (negb (dryRun flags) && String.eqb _ ""); [by intros [= <- <-]|].
  destruct (negb (dryRun flags) && String.eqb _ ""); [by intros [= <- <-]|].
  destruct (decrypt_File fs sopsFile) as [decrypted|e]; [|by intros [= <- <-]].
  destruct (yaml_Unmarshal_map decrypted) as [data|e]; [|by intros [= <- <-]].
  destruct (dryRun flags); [by intros [= <- <-]|].
  destruct (NewVaultClient _ _ _ _) as [vc|e]; [|by intros [= <- <-]].
  destruct (writeSecrets _ _ _ _ _ _ _ _) as [s [[secretPath err]|]];
    [by intros [= <- <-]|].
  destruct (updateCounterpart flags); [|by intros [= <- <-]].
  destruct (mainUpdateCounterpart _ _ _ _ _ _ _) as [o'|] eqn:E; [|done].
  cbn [mbind option_bind]. intros [= <- <-]. cbn [exitStatus].
  by rewrite (mainUpdateCounterpart_exit _ _ _ _ _ _ E).
Qed.

(** X20 — the write loop stops at the first error and undoes nothing.
    When the loop over the keys reports an error, the keys split into those
    before the failing key, which were all written without error, the
    failing key itself, whose path and error are the ones reported, and the
    keys after it, which were not attempted: the Vault state is the one the
    failing write left. *)
Theorem X20_write_loop_stops_at_first_error vc store vaultPath flattened keys
    store' secretPath err :
  writeSecrets V Logical_Write fmt_v vc store vaultPath flattened keys
    = (store', Some (secretPath, err)) →
  ∃ before key after store1,
    keys = before ++ key :: after ∧
    secretPath = vaultPath +:+ "/" +:+ key ∧
    writeSecrets V Logical_Write fmt_v vc store vaultPath flattened before
      = (store1, None) ∧
    WriteKVv2 V Logical_Write fmt_v vc store1 secretPath
              (default VNil (flattened !! key)) = (store', Some err).
Proof.
  revert store. induction keys as [|key keys IH]; intros store H; [done|].
  cbn [writeSecrets] in H. cbv zeta in H.
  destruct (WriteKVv2 V Logical_Write fmt_v vc store (vaultPath +:+ "/" +:+ key)
              (default VNil (flattened !! key))) as [s [e|]] eqn:E.
  - simplify_eq. by exists [], key, keys, store.
  - destruct (IH _ H) as (before & k & after & s1 & -> & -> & Hb & Hw).
    exists (key :: before), k, after, s1. split_and!; [done|done| |done].
    cbn [writeSecrets]. cbv zeta. by rewrite E.
Qed.


End MainFacts.

Lemma X17_missing_config_exits_first_witness :
  ∃ msg,
    sampleMain (mkFlags "" "s.token" "secret" false false "" false)
               ["good-secrets.enc.yaml"; "app"] ∅ sampleFS []
      = Some ([], mkOutcome sampleFS "" msg 1) ∧
    (msg = "Error: Vault address required (--vault-addr or VAULT_ADDR)" +:+ nl ∨
     msg = "Error: Vault token required (--vault-token or VAULT_TOKEN)" +:+ nl).
Proof.
  apply (X17_missing_config_exits_first (list (string * GoValue)) sampleNewClient
           sampleWrite sample_fmt_v sampleDecrypt sampleUnmarshalMap sampleUnmarshal
           sampleEncode unixBase (λ _, ".") sampleJoin (λ p, "/work/" +:+ p) "Usage: ..."
           (mkFlags "" "s.token" "secret" false false "" false)
           "good-secrets.enc.yaml" "app" ∅ sampleFS []).
  - reflexivity.
  - left. reflexivity.
Defined.

Lemma X18_dry_run_has_no_effect_witness :
  (∃ o, sampleMain (sampleFlags true true) ["good-secrets.enc.yaml"; "app"] ∅ sampleFS []
          = Some ([], o) ∧ files o = sampleFS) ∧
  sampleMain (sampleFlags true true) ["good-secrets.enc.yaml"; "app"] ∅ sampleFS [] =
    main (list (string * GoValue)) (λ _, Some "unreachable")
         (λ store _ _ _, (store, Some "unreachable")) sample_fmt_v
         sampleDecrypt sampleUnmarshalMap sampleUnmarshal sampleEncode
         unixBase (λ _, ".") sampleJoin (λ p, "/work/" +:+ p) "Usage: ..."
         (sampleFlags true true) ["good-secrets.enc.yaml"; "app"] ∅ sampleFS [].
Proof.
  apply (X18_dry_run_has_no_effect (list (string * GoValue)) sampleNewClient
           sampleWrite sample_fmt_v sampleDecrypt sampleUnmarshalMap sampleUnmarshal
           sampleEncode unixBase (λ _, ".") sampleJoin (λ p, "/work/" +:+ p) "Usage: ..."
           (sampleFlags true true) ["good-secrets.enc.yaml"; "app"] ∅ sampleFS []
           (λ _, Some "unreachable") (λ store _ _ _, (store, Some "unreachable"))).
  reflexivity.
Defined.

Lemma X19_failed_run_writes_no_file_witness :
  let o :=
    mkOutcome sampleFS ""
      ("Error writing to Vault path app/locked: " +:+
       "failed to write to vault path app/locked: permission denied" +:+ nl) 1 in
  files o = sampleFS ∧ stdout o = "".
Proof.
  intros o.
  apply (X19_failed_run_writes_no_file (list (string * GoValue)) sampleNewClient
           sampleWrite sample_fmt_v sampleDecrypt sampleUnmarshalMap sampleUnmarshal
           sampleEncode unixBase (λ _, ".") sampleJoin (λ p, "/work/" +:+ p) "Usage: ..."
           (sampleFlags false true) ["locked-secrets.enc.yaml"; "app"] ∅ sampleFS []
           [("secret/data/app/a", VMap [("data", VMap [("value", VString "1")])])] o).
  - vm_compute. reflexivity.
  - discriminate.
Defined.

Lemma X20_write_loop_stops_at_first_error_witness :
  let vc := mkVaultClient (mkClient "https://vault.example.com" "s.token") "secret" in
  let flattened : gmap string GoValue :=
    {[ "a" := VString "1"; "locked" := VString "2"; "z" := VString "3" ]} in
  let store' := [("secret/data/app/a", VMap [("data", VMap [("value", VString "1")])])] in
  ∃ before key after store1,
    ["a"; "locked"; "z"] = before ++ key :: after ∧
    "app/locked" = "app" +:+ "/" +:+ key ∧
    writeSecrets (list (string * GoValue)) sampleWrite sample_fmt_v vc [] "app"
                 flattened before = (store1, None) ∧
    WriteKVv2 (list (string * GoValue)) sampleWrite sample_fmt_v vc store1 "app/locked"
              (default VNil (flattened !! key)) = (store', Some
                "failed to write to vault path app/locked: permission denied").
Proof.
  intros vc flattened store'.
  apply (X20_write_loop_stops_at_first_error (list (string * GoValue)) sampleWrite
           sample_fmt_v vc [] "app" flattened ["a"; "locked"; "z"] store' "app/locked"
           "failed to write to vault path app/locked: permission denied").
  vm_compute. reflexivity.
Defined.


Example sampleMain_warning_run :
  sampleMain (sampleFlags false true) ["good-secrets.enc.yaml"; "app"] ∅ sampleFS []
  = Some ([("secret/data/app/db.port", VMap [("data", VMap [("value", VString "5432")])]);
           ("secret/data/app/password",
            VMap [("data", VMap [("value", VString "hunter2")])])],
          mkOutcome sampleFS
            ("Successfully wrote 2 secrets to secret/app/*" +:+ nl)
            ("Warning: failed to update counterpart file: parsing YAML: "
             +:+ "yaml: did not find expected key" +:+ nl) 0).
Proof. vm_compute. reflexivity. Qed.

(** X22 — an overwritten value keeps its decoration.  When a key hits an
    existing entry, only the kind, tag, text and children of the value node
    are assigned: the node at that position keeps the style, the anchor,
    the three comments and the line and column of the node it replaces. *)
Theorem X22_overwrite_keeps_decoration node keyPath value i old :
  Kind node = MappingNode → keyPath ≠ [] →
  firstKeyAt (Content node) i (strings_Join keyPath ".") →
  Content node !! (i + 1) = Some old →
  ∃ node' new,
    upsertNestedKey node keyPath value = Some node' ∧
    Content node' !! (i + 1) = Some new ∧
    Value new = value ∧
    Style new = Style old ∧ Anchor new = Anchor old ∧
    HeadComment new = HeadComment old ∧ LineComment new = LineComment old ∧
    FootComment new = FootComment old ∧
    Line new = Line old ∧ Column new = Column old.
Proof.
  intros Hk Hne Hi Hold.
  exists (setContent node (<[i + 1 := assignScalar old value]> (Content node))),
         (assignScalar old value).
  split_and!; try done.
  - by apply upsert_flat_match.
  - rewrite Content_setContent. apply list_lookup_insert_eq.
    by apply lookup_lt_Some in Hold.
Qed.

Lemma X22_overwrite_keeps_decoration_witness :
  let old := mkNode ScalarNode 2 "!!str" "placeholder" "pw" [] "# the password" "" "" 3 11 in
  let node := mapping [scalar "password"; old] in
  ∃ node' new,
    upsertNestedKey node ["password"] "ref+vault://secret/app/password#value" = Some node' ∧
    Content node' !! (0 + 1) = Some new ∧
    Value new = "ref+vault://secret/app/password#value" ∧
    Style new = Style old ∧ Anchor new = Anchor old ∧
    HeadComment new = HeadComment old ∧ LineComment new = LineComment old ∧
    FootComment new = FootComment old ∧
    Line new = Line old ∧ Column new = Column old.
Proof.
  intros old node.
  apply (X22_overwrite_keeps_decoration node ["password"]
           "ref+vault://secret/app/password#value" 0 old).
  - reflexivity.
  - discriminate.
  - apply findKey_Some. reflexivity.
  - reflexivity.
Defined.
